(** * The line-composition engine of lager, embedded in Rocq

    The engine composes one JSON log line at a time in a fixed scratch
    region ([buffer]), flushes it to an output stream, and takes the
    process-wide mutex [outMu] only when a line cannot be written with a
    single call.  The definitions below follow the Go source function by
    function; stateful code is written in state-passing style over the
    record [buffer], which also carries the history of calls that reached
    [outMu] and the stream [b.w]. *)

From Stdlib Require Import String.
From Stdlib Require Import ZArith NArith List Bool Lia Permutation.
From Stdlib Require Import Strings.Byte.
From Stdlib Require Import Floats.SpecFloat.
Import ListNotations.
Open Scope Z_scope.
Set Warnings "-register-all".

(** ** Byte strings *)

(** A Go [string] or [[]byte] is a sequence of bytes. *)
Definition gostring := list byte.

(** Literals: the bytes of an ASCII literal. *)
Definition bs (s : String.string) : gostring := String.list_byte_of_string s.
Arguments bs s%_string.

(** [len(s)], a Go [int]. *)
Definition len (s : gostring) : Z := Z.of_nat (length s).

(** The double quote and the backslash, which the concrete syntax of
    literals makes awkward. *)
Definition dq : gostring := [x22].
Definition bsl : gostring := [x5c].

(** ** The output side: [outMu] and the stream [b.w] *)

(** Calls made on the mutex [outMu] and on the stream, in program order. *)
Inductive event :=
| EvLock                   (* outMu.Lock() *)
| EvUnlock                 (* outMu.Unlock() *)
| EvWrite (s : gostring).  (* b.w.Write(s) or io.WriteString(b.w, s) *)

(** Whether [outMu] is held after a history of calls. *)
Definition held (t : list event) : bool :=
  fold_left (fun h e => match e with
                        | EvLock => true
                        | EvUnlock => false
                        | EvWrite _ => h
                        end) t false.

(** The bytes that reached the stream. *)
Fixpoint written (t : list event) : gostring :=
  match t with
  | [] => []
  | EvWrite s :: t' => s ++ written t'
  | _ :: t' => written t'
  end.

(** The payloads of the write calls, one per call. *)
Fixpoint writes (t : list event) : list gostring :=
  match t with
  | [] => []
  | EvWrite s :: t' => s :: writes t'
  | _ :: t' => writes t'
  end.

(** ** The line buffer *)

(** [scratch [16*1024]byte]: the capacity of a slice [b.scratch[0:0]]. *)
Definition scratch_cap : Z := 16 * 1024.

(** [type buffer struct].  [buf] is the content of the slice [b.buf] and
    [cap] its capacity; [trace] stands for [b.w] and [outMu]: the calls
    they received while this buffer composed its line. *)
Record buffer := mkBuffer {
  buf    : gostring;
  cap    : Z;
  trace  : list event;
  delim  : gostring;
  locked : bool
}.

Definition emit (e : event) (b : buffer) : buffer :=
  mkBuffer (buf b) (cap b) (trace b ++ [e]) (delim b) (locked b).

(** [b.buf = b.scratch[0:0]] *)
Definition reset_buf (b : buffer) : buffer :=
  mkBuffer [] scratch_cap (trace b) (delim b) (locked b).

Definition set_buf (s : gostring) (b : buffer) : buffer :=
  mkBuffer s (cap b) (trace b) (delim b) (locked b).

Definition set_delim (d : gostring) (b : buffer) : buffer :=
  mkBuffer (buf b) (cap b) (trace b) d (locked b).

Definition set_locked (l : bool) (b : buffer) : buffer :=
  mkBuffer (buf b) (cap b) (trace b) (delim b) l.

(** [bufPool.New]: a new buffer, its fields zero but for [buf]. *)
Definition newBuffer : buffer := mkBuffer [] scratch_cap [] [] false.

(** All the bytes of the line so far: those that reached the stream and
    those still resident in the scratch region. *)
Definition emitted (b : buffer) : gostring := written (trace b) ++ buf b.

(** [const comma]: a comma and a space. *)
Definition comma : gostring := bs ", ".

(** ** The escape table *)

(** [noEsc], as [init] fills it: true from [' '] to 255, then false for
    the double quote and the backslash. *)
Definition noEsc (c : byte) : bool :=
  (32 <=? Byte.to_N c)%N && negb (Byte.eqb c x22) && negb (Byte.eqb c x5c).

Definition hexDigits : gostring := bs "0123456789abcdef".

(** [buf[o] = x] on a byte slice, in range. *)
Fixpoint set_at (o : nat) (x : byte) (s : gostring) : gostring :=
  match s, o with
  | [], _ => []
  | _ :: s', O => x :: s'
  | y :: s', S o' => y :: set_at o' x s'
  end.

(** The [default] branch of the switch in [escape]: the loop
    [for o := 5; 1 < o; o--] over the template. *)
Definition hexEsc (c : byte) : gostring :=
  let body (st : gostring * N) (o : nat) :=
    let h := N.land (snd st) 15 in
    (set_at o (nth (N.to_nat h) hexDigits x00) (fst st), N.shiftr (snd st) 4) in
  fst (fold_left body [5; 4; 3; 2]%nat (bs "\u0000", Byte.to_N c)).

(** The [switch c] in [escape] and [escapeBytes]: the value of [next]. *)
Definition nextEsc (c : byte) : gostring :=
  match c with
  | x22 => bsl ++ dq
  | x5c => bsl ++ bsl
  | x08 => bs "\b"
  | x0c => bs "\f"
  | x0a => bs "\n"
  | x0d => bs "\r"
  | x09 => bs "\t"
  | _ => hexEsc c
  end.

(** ** Ordering of keys *)

(** The order [<] of Go strings: byte-wise, lexicographic. *)
Fixpoint str_ltb (x y : gostring) : bool :=
  match x, y with
  | _, [] => false
  | [], _ :: _ => true
  | a :: x', c :: y' =>
      (Byte.to_N a <? Byte.to_N c)%N || (Byte.eqb a c && str_ltb x' y')
  end.

(** Entries in ascending order of their keys, as [sort.Strings] leaves
    the keys. *)
Fixpoint insert_key {A} (e : gostring * A) (l : list (gostring * A)) :=
  match l with
  | [] => [e]
  | e' :: l' =>
      if str_ltb (fst e') (fst e) then e' :: insert_key e l' else e :: l
  end.

Definition sort_keys {A} (l : list (gostring * A)) : list (gostring * A) :=
  fold_right insert_key [] l.

(** [len(v)] of a slice of any element type. *)
Definition len_of {A} (l : list A) : Z := Z.of_nat (length l).

(** ** Values *)

(** What [json.Marshal] returned for a value of a type the encoder does
    not know. *)
Inductive marshalled :=
| Marshalled (out : gostring)
| MarshalError (msg : gostring).

(** Modelled from the spec: the declarations of [AMap], [AList] and
    [RawMap] are not in the files at hand.  An [AMap] is a pointer, nil
    ([None]) or to parallel [keys] and [vals] of equal length, here the
    list of its entries in insertion order; [AList] and [RawMap] are
    slices of values; a [map[string]interface{}] is the list of its
    entries, keys unique, in no particular order.

    The constructors are the dynamic types [scalar] switches on.  [VInt]
    stands for [int] and the sized signed integers, [VUint] for the
    unsigned ones; a [float32] is carried after its conversion
    [float64(v)]. *)
Inductive value :=
| VNil
| VString (v : gostring)
| VBytes (v : gostring)
| VInt (v : Z)
| VUint (v : Z)
| VFloat32 (v : spec_float)
| VFloat64 (v : spec_float)
| VBool (v : bool)
| VStrings (v : list gostring)
| VAList (v : list value)
| VRawMap (v : list value)
| VAMap (v : option (list (gostring * value)))
| VMap (v : list (gostring * value))
| VError (msg : gostring)
| VOther (r : marshalled).

Section Engine.

(** What the engine takes from outside the files at hand. *)

(** The capacity the Go runtime gives a slice that [append] has to move:
    old capacity and needed length to new capacity. *)
Variable growcap : Z -> Z -> Z.

(** [append(b.buf, s...)] *)
Definition goappend (s : gostring) (b : buffer) : buffer :=
  if len (buf b) + len s <=? cap b
  then set_buf (buf b ++ s) b
  else mkBuffer (buf b ++ s) (growcap (cap b) (len (buf b) + len s))
                (trace b) (delim b) (locked b).

(** ** Flushing *)

(** [func (b *buffer) lock()] *)
Definition lock (b : buffer) : buffer :=
  let b1 := if negb (locked b) then set_locked true (emit EvLock b) else b in
  if 0 <? len (buf b1)
  then reset_buf (emit (EvWrite (buf b1)) b1)
  else b1.

(** [func (b *buffer) unlock()] *)
Definition unlock (b : buffer) : buffer :=
  let b1 := if 0 <? len (buf b)
            then reset_buf (emit (EvWrite (buf b)) b)
            else b in
  if locked b1 then emit EvUnlock (set_locked false b1) else b1.

(** [func (b *buffer) writeBytes(s []byte)] *)
Definition writeBytes (s : gostring) (b : buffer) : buffer :=
  let b1 := if cap b <? len (buf b) + len s then lock b else b in
  if cap b1 <? len s
  then emit (EvWrite s) b1
  else goappend s b1.

(** The body of the loop in [write], for one string.  The slice
    expression [b.buf[0:will]] is in range whenever it is reached
    ([write_reslice_in_range] below), so it is modelled without its
    run-time check. *)
Definition write1 (s : gostring) (b : buffer) : buffer :=
  let b1 := if cap b <? len (buf b) + len s then lock b else b in
  if cap b1 <? len s
  then emit (EvWrite s) b1
  else set_buf (buf b1 ++ s) b1.

(** [func (b *buffer) write(strs ...string)] *)
Definition write (strs : list gostring) (b : buffer) : buffer :=
  fold_left (fun b s => write1 s b) strs b.

(** ** Escaping and quoting *)

(** The loop of [escape]: [run] is [s[beg:i]], [rest] is [s[i:]]. *)
Fixpoint escape_loop (run rest : gostring) (b : buffer) : buffer :=
  match rest with
  | [] => write [run] b
  | c :: rest' =>
      if noEsc c
      then escape_loop (run ++ [c]) rest' b
      else escape_loop [] rest' (write [nextEsc c] (write [run] b))
  end.

(** [func (b *buffer) escape(s string)] *)
Definition escape (s : gostring) (b : buffer) : buffer := escape_loop [] s b.

(** The loop of [escapeBytes]. *)
Fixpoint escapeBytes_loop (run rest : gostring) (b : buffer) : buffer :=
  match rest with
  | [] => writeBytes run b
  | c :: rest' =>
      if noEsc c
      then escapeBytes_loop (run ++ [c]) rest' b
      else escapeBytes_loop [] rest' (write [nextEsc c] (writeBytes run b))
  end.

(** [func (b *buffer) escapeBytes(s []byte)] *)
Definition escapeBytes (s : gostring) (b : buffer) : buffer :=
  escapeBytes_loop [] s b.

(** [func (b *buffer) quote(s string)] *)
Definition quote (s : gostring) (b : buffer) : buffer :=
  set_delim comma (write [dq] (escape s (write [delim b; dq] b))).

(** [func (b *buffer) quoteBytes(s []byte)] *)
Definition quoteBytes (s : gostring) (b : buffer) : buffer :=
  write [dq] (escapeBytes s (write [delim b; dq] b)).

(** ** Numbers *)

(** The conversion [byte(x)] of a Go [int]. *)
Definition byte_of_Z (z : Z) : byte :=
  match Byte.of_N (Z.to_N (z mod 256)) with
  | Some c => c
  | None => x00
  end.

(** The decimal digits of a natural number, most significant first;
    twenty rounds cover a [uint64]. *)
Fixpoint digits_loop (fuel : nat) (n : Z) (acc : gostring) : gostring :=
  match fuel with
  | O => acc
  | S fuel' =>
      let acc' := byte_of_Z (48 + n mod 10) :: acc in
      if n <? 10 then acc' else digits_loop fuel' (n / 10) acc'
  end.

(** The text [strconv.AppendUint(dst, v, 10)] appends. *)
Definition formatUint (v : Z) : gostring := digits_loop 20 v [].

(** The text [strconv.AppendInt(dst, v, 10)] appends. *)
Definition formatInt (v : Z) : gostring :=
  if v <? 0 then bs "-" ++ formatUint (- v) else formatUint v.

(** The text [strconv.AppendFloat(dst, f, 'g', -1, bitSize)] appends. *)
Variable formatFloat : spec_float -> Z -> gostring.

Notation "x <- a ;; k" :=
  (match a with Some x => k | None => None end)
  (at level 61, a at next level, right associativity).

(** [func (b *buffer) int2(val int)].  [None] is the run-time panic of a
    slice expression past the capacity. *)
Definition int2 (val : Z) (b : buffer) : option buffer :=
  let l := len (buf b) in
  if cap b <? 2 + l
  then None
  else Some (set_buf (buf b ++ [byte_of_Z (48 + Z.quot val 10);
                                byte_of_Z (48 + Z.rem val 10)]) b).

(** [func (b *buffer) int(val int, digits int)] *)
Definition int (val digits : Z) (b : buffer) : option buffer :=
  let bef := len (buf b) in
  let b1 := goappend (formatInt val) b in
  let aft := len (buf b1) in
  let l := aft - bef in
  if l <? digits
  then if cap b1 <? bef + digits
       then None
       else Some (set_buf (buf b ++ repeat x30 (Z.to_nat (digits - l))
                                 ++ formatInt val) b1)
  else Some b1.

(** What [time.Now().In(time.UTC)] is asked for. *)
Record utc := mkUtc {
  year : Z; month : Z; day : Z;
  hour : Z; minute : Z; second : Z;
  nanosecond : Z
}.

(** [func (b *buffer) timestamp()], the clock reading made an argument. *)
Definition timestamp (now : utc) (b : buffer) : option buffer :=
  let b := if cap b <? len (buf b) + 22 then lock b else b in
  let b := write [dq] b in
  let b := goappend (formatInt (year now)) b in
  let b := write [bs "-"] b in
  b <- int2 (month now) b ;;
  let b := write [bs "-"] b in
  b <- int2 (day now) b ;;
  let b := write [bs " "] b in
  b <- int2 (hour now) b ;;
  let b := write [bs ":"] b in
  b <- int2 (minute now) b ;;
  let b := write [bs ":"] b in
  b <- int2 (second now) b ;;
  let b := write [bs "."] b in
  b <- int (Z.quot (nanosecond now) 1000000) 3 b ;;
  let b := write [bs "Z" ++ dq] b in
  Some (set_delim comma b).

(** ** Structure *)

(** [func (b *buffer) open(punct string)] *)
Definition open (punct : gostring) (b : buffer) : buffer :=
  set_delim [] (write [delim b; punct] b).

(** [func (b *buffer) colon()] *)
Definition colon (b : buffer) : buffer :=
  set_delim [] (write [bs ":"] b).

(** [func (b *buffer) close(punct string)] *)
Definition close (punct : gostring) (b : buffer) : buffer :=
  set_delim comma (write [punct] b).

(** ** The encoder *)

(** [S(elt)]: the text of a value used as a key; declared outside the
    files at hand. *)
Variable S : value -> gostring.

(** Lines 285-289 of [scalar]: the pending delimiter, then room for
    [strconv.AppendFloat] or similar. *)
Definition scalar_head (b : buffer) : buffer :=
  let b := set_delim [] (write [delim b] b) in
  if cap b <? len (buf b) + 64 then lock b else b.

(** [b.scalar(s)] for a [string] and for [nil], as the loops of the
    container cases call it ([scalar_VString] and [scalar_VNil] below). *)
Definition scalar_string (s : gostring) (b : buffer) : buffer :=
  set_delim comma (quote s (scalar_head b)).

Definition scalar_nil (b : buffer) : buffer :=
  set_delim comma (write [bs "null"] (scalar_head b)).

(** [func (b *buffer) scalar(s interface{})].  In the [AMap] case the
    calls [b.pairs(v)] and [b.pair(k, m.vals[i])] are unfolded
    ([scalar_VAMap] below restates the case with [pairs]).  In the
    [map[string]interface{}] case the entries are put in the order of
    [sort.Strings(keys)], each with the encoder of its value [v[k]]. *)
Fixpoint scalar (s : value) : buffer -> buffer :=
  fun b =>
  match s with
  | VAMap None => b
  | VAMap (Some []) => b
  | _ =>
    let b := scalar_head b in
    let b :=
      match s with
      | VNil => write [bs "null"] b
      | VString v => quote v b
      | VBytes v => quoteBytes v b
      | VInt v => goappend (formatInt v) b
      | VUint v => goappend (formatUint v) b
      | VFloat32 v => goappend (formatFloat v 32) b
      | VFloat64 v => goappend (formatFloat v 64) b
      | VBool v => if v then write [bs "true"] b else write [bs "false"] b
      | VStrings v =>
          close (bs "]")
            (fold_left (fun b s => scalar_string s b) v (open (bs "[") b))
      | VAList v =>
          close (bs "]")
            (fold_left (fun b s => scalar s b) v (open (bs "[") b))
      | VRawMap v =>
          let b := open (bs "{") b in
          let b :=
            (fix loop (even : bool) (v : list value) (b : buffer) : buffer :=
               match v with
               | [] => b
               | elt :: v' =>
                   loop (negb even) v'
                     (if even then colon (quote (S elt) b) else scalar elt b)
               end) true v b in
          let b := if Z.land 1 (len_of v) =? 1 then scalar_nil b else b in
          close (bs "}") b
      | VAMap v =>
          let b := open (bs "{") b in
          let b :=
            match v with
            | None => b
            | Some m =>
                fold_left (fun b kv => scalar (snd kv) (colon (quote (fst kv) b)))
                          m b
            end in
          close (bs "}") b
      | VMap v =>
          let keyed := map (fun kv => (fst kv, scalar (snd kv))) v in
          let b := open (bs "{") b in
          let b := fold_left (fun b kf => snd kf (colon (quote (fst kf) b)))
                             (sort_keys keyed) b in
          close (bs "}") b
      | VError msg => quote msg b
      | VOther (MarshalError msg) => quote (bs "! " ++ msg) b
      | VOther (Marshalled out) => writeBytes out b
      end in
    set_delim comma b
  end.

(** [func (b *buffer) pair(k string, v interface{})] *)
Definition pair (k : gostring) (v : value) (b : buffer) : buffer :=
  scalar v (colon (quote k b)).

(** [func (b *buffer) pairs(m AMap)] *)
Definition pairs (m : option (list (gostring * value))) (b : buffer) : buffer :=
  match m with
  | None => b
  | Some l => fold_left (fun b kv => pair (fst kv) (snd kv) b) l b
  end.

(** The loop of the [RawMap] case, [even] telling whether [0 == 1 & i]. *)
Fixpoint rawmap_loop (even : bool) (v : list value) (b : buffer) : buffer :=
  match v with
  | [] => b
  | elt :: v' =>
      rawmap_loop (negb even) v'
        (if even then colon (quote (S elt) b) else scalar elt b)
  end.

(** ** Composing a line *)

(** One call on the buffer while a line is composed. *)
Inductive step : buffer -> buffer -> Prop :=
| step_lock b : step b (lock b)
| step_write strs b : step b (write strs b)
| step_writeBytes s b : step b (writeBytes s b)
| step_quote s b : step b (quote s b)
| step_quoteBytes s b : step b (quoteBytes s b)
| step_escape s b : step b (escape s b)
| step_escapeBytes s b : step b (escapeBytes s b)
| step_int2 val b b' : int2 val b = Some b' -> step b b'
| step_int val digits b b' : int val digits b = Some b' -> step b b'
| step_timestamp now b b' : timestamp now b = Some b' -> step b b'
| step_open punct b : step b (open punct b)
| step_colon b : step b (colon b)
| step_close punct b : step b (close punct b)
| step_pair k v b : step b (pair k v b)
| step_pairs m b : step b (pairs m b)
| step_scalar v b : step b (scalar v b).

(** Any number of calls, in order. *)
Inductive composes : buffer -> buffer -> Prop :=
| composes_nil b : composes b b
| composes_snoc b b' b'' : composes b b' -> step b' b'' -> composes b b''.

End Engine.

(** A line starts with the mutex not taken and nothing sent. *)
Definition line_start (b : buffer) : Prop :=
  locked b = false /\ trace b = [].

(** ** What the spec says of the escaper *)

(** The two lowercase hexadecimal digits. *)
Definition lower_hex (n : N) : byte :=
  match Byte.of_N (if (n <? 10)%N then 48 + n else 97 + (n - 10))%N with
  | Some c => c
  | None => x00
  end.

(** The escaping of one byte in the words of the spec: the named
    escapes, [\u00XX] for the other control bytes, everything else as
    it is. *)
Definition spec_escape_byte (c : byte) : gostring :=
  let n := Byte.to_N c in
  if (n =? 34)%N then bsl ++ dq
  else if (n =? 92)%N then bsl ++ bsl
  else if (n =? 8)%N then bsl ++ bs "b"
  else if (n =? 12)%N then bsl ++ bs "f"
  else if (n =? 10)%N then bsl ++ bs "n"
  else if (n =? 13)%N then bsl ++ bs "r"
  else if (n =? 9)%N then bsl ++ bs "t"
  else if (n <? 32)%N
       then bsl ++ bs "u00" ++ [lower_hex (n / 16); lower_hex (n mod 16)]
       else [c].

Definition spec_escape (s : gostring) : gostring :=
  flat_map spec_escape_byte s.

(** ** JSON string un-escaping *)

Definition hex_val (c : byte) : option N :=
  let n := Byte.to_N c in
  if (48 <=? n)%N && (n <=? 57)%N then Some (n - 48)%N
  else if (97 <=? n)%N && (n <=? 102)%N then Some (n - 87)%N
  else if (65 <=? n)%N && (n <=? 70)%N then Some (n - 55)%N
  else None.

Definition byte_of_N (n : N) : byte :=
  match Byte.of_N (n mod 256) with Some c => c | None => x00 end.

(** UTF-8 of a code point; a surrogate, which stands for no character
    of its own, gives the replacement character U+FFFD. *)
Definition replacement : gostring := [xef; xbf; xbd].

Definition utf8_encode (cp : N) : gostring :=
  if (cp <? 128)%N then [byte_of_N cp]
  else if (cp <? 2048)%N
       then [byte_of_N (192 + cp / 64); byte_of_N (128 + cp mod 64)]
  else if (55296 <=? cp)%N && (cp <=? 57343)%N then replacement
  else if (cp <? 65536)%N
       then [byte_of_N (224 + cp / 4096);
             byte_of_N (128 + (cp / 64) mod 64);
             byte_of_N (128 + cp mod 64)]
  else [byte_of_N (240 + cp / 262144);
        byte_of_N (128 + (cp / 4096) mod 64);
        byte_of_N (128 + (cp / 64) mod 64);
        byte_of_N (128 + cp mod 64)].

(** The well-formed byte sequences of UTF-8 (Unicode, table 3-7): what
    the first byte announces, the continuation bytes, and the narrower
    range of the second byte after E0, ED, F0 and F4. *)
Inductive utf8_kind := Single | Lead2 | Lead3 | Lead4 | NotLead.

Definition utf8_lead (c : byte) : utf8_kind :=
  let n := Byte.to_N c in
  if (n <? 128)%N then Single
  else if (194 <=? n)%N && (n <=? 223)%N then Lead2
  else if (224 <=? n)%N && (n <=? 239)%N then Lead3
  else if (240 <=? n)%N && (n <=? 244)%N then Lead4
  else NotLead.

Definition cont (c : byte) : bool :=
  (128 <=? Byte.to_N c)%N && (Byte.to_N c <=? 191)%N.

Definition second_ok (c c1 : byte) : bool :=
  let n := Byte.to_N c in
  let n1 := Byte.to_N c1 in
  cont c1 &&
  (if (n =? 224)%N then (160 <=? n1)%N
   else if (n =? 237)%N then (n1 <=? 159)%N
   else if (n =? 240)%N then (144 <=? n1)%N
   else if (n =? 244)%N then (n1 <=? 143)%N
   else true).

(** A text in well-formed UTF-8. *)
Fixpoint valid_utf8 (s : gostring) : bool :=
  match s with
  | [] => true
  | c :: rest =>
      match utf8_lead c with
      | Single => valid_utf8 rest
      | Lead2 =>
          match rest with
          | c1 :: r1 => cont c1 && valid_utf8 r1
          | _ => false
          end
      | Lead3 =>
          match rest with
          | c1 :: c2 :: r2 => second_ok c c1 && cont c2 && valid_utf8 r2
          | _ => false
          end
      | Lead4 =>
          match rest with
          | c1 :: c2 :: c3 :: r3 =>
              second_ok c c1 && cont c2 && cont c3 && valid_utf8 r3
          | _ => false
          end
      | NotLead => false
      end
  end.

(** What a byte of a JSON string is to the parser. *)
Inductive decode_kind :=
| DEscape | DReject | DPlain | DLead2 | DLead3 | DLead4 | DInvalid.

Definition decode_lead (c : byte) : decode_kind :=
  if Byte.eqb c x5c then DEscape
  else if (Byte.to_N c <? 32)%N || Byte.eqb c x22 then DReject
  else match utf8_lead c with
       | Single => DPlain
       | Lead2 => DLead2
       | Lead3 => DLead3
       | Lead4 => DLead4
       | NotLead => DInvalid
       end.

Definition hex4 (h1 h2 h3 h4 : byte) : option N :=
  match hex_val h1, hex_val h2, hex_val h3, hex_val h4 with
  | Some a, Some b, Some c, Some d => Some (((a * 16 + b) * 16 + c) * 16 + d)%N
  | _, _, _, _ => None
  end.

Definition is_surrogate (cp : N) : bool :=
  (55296 <=? cp)%N && (cp <=? 57343)%N.

Definition prepend (u : gostring) (o : option gostring) : option gostring :=
  match o with
  | Some r => Some (u ++ r)
  | None => None
  end.

(** The character a two-character escape stands for (RFC 8259, 7). *)
Definition simple_unescape (e : byte) : option byte :=
  let n := Byte.to_N e in
  if (n =? 34)%N then Some x22
  else if (n =? 92)%N then Some x5c
  else if (n =? 47)%N then Some x2f
  else if (n =? 98)%N then Some x08
  else if (n =? 102)%N then Some x0c
  else if (n =? 110)%N then Some x0a
  else if (n =? 114)%N then Some x0d
  else if (n =? 116)%N then Some x09
  else None.

(** The content of a JSON string, between its quotes, read back as
    Go's [encoding/json] reads it.  A raw quote or control byte is
    refused.  An escape is replaced by its character, in UTF-8; two
    [\u] escapes that are a surrogate pair make one character, and a
    surrogate without its pair makes U+FFFD.  A well-formed UTF-8
    sequence is decoded and encoded again, which gives the same bytes; a
    byte that starts none is replaced by U+FFFD and the reading goes on
    at the next byte. *)
Fixpoint json_unescape (s : gostring) : option gostring :=
  match s with
  | [] => Some []
  | c :: rest =>
      match decode_lead c with
      | DEscape =>
          match rest with
          | [] => None
          | e :: rest1 =>
              if Byte.eqb e x75 then
                match rest1 with
                | h1 :: h2 :: h3 :: h4 :: rest2 =>
                    match hex4 h1 h2 h3 h4 with
                    | None => None
                    | Some cp =>
                        if is_surrogate cp then
                          match rest2 with
                          | b1 :: b2 :: l1 :: l2 :: l3 :: l4 :: rest3 =>
                              match (if Byte.eqb b1 x5c && Byte.eqb b2 x75
                                     then hex4 l1 l2 l3 l4 else None) with
                              | Some lo =>
                                  if (cp <? 56320)%N && (56320 <=? lo)%N
                                     && (lo <=? 57343)%N
                                  then prepend
                                         (utf8_encode
                                            (65536 + (cp - 55296) * 1024
                                             + (lo - 56320))%N)
                                         (json_unescape rest3)
                                  else prepend replacement (json_unescape rest2)
                              | None => prepend replacement (json_unescape rest2)
                              end
                          | _ => prepend replacement (json_unescape rest2)
                          end
                        else prepend (utf8_encode cp) (json_unescape rest2)
                    end
                | _ => None
                end
              else
                match simple_unescape e with
                | Some x => prepend [x] (json_unescape rest1)
                | None => None
                end
          end
      | DReject => None
      | DPlain => prepend [c] (json_unescape rest)
      | DLead2 =>
          match rest with
          | c1 :: r1 =>
              if cont c1 then prepend [c; c1] (json_unescape r1)
              else prepend replacement (json_unescape rest)
          | _ => prepend replacement (json_unescape rest)
          end
      | DLead3 =>
          match rest with
          | c1 :: c2 :: r2 =>
              if second_ok c c1 && cont c2
              then prepend [c; c1; c2] (json_unescape r2)
              else prepend replacement (json_unescape rest)
          | _ => prepend replacement (json_unescape rest)
          end
      | DLead4 =>
          match rest with
          | c1 :: c2 :: c3 :: r3 =>
              if second_ok c c1 && cont c2 && cont c3
              then prepend [c; c1; c2; c3] (json_unescape r3)
              else prepend replacement (json_unescape rest)
          | _ => prepend replacement (json_unescape rest)
          end
      | DInvalid => prepend replacement (json_unescape rest)
      end
  end.

(** ** What the spec says of the other operations *)

Section Reference.

Variable growcap : Z -> Z -> Z.
Variable formatFloat : spec_float -> Z -> gostring.
Variable S : value -> gostring.

(** A flat alternating list in the words of the spec: successive
    elements are a key, then its value; an odd trailing element is a key
    with the value null. *)
Fixpoint rawmap_pairs (v : list value) (b : buffer) : buffer :=
  match v with
  | [] => b
  | [k] => pair growcap formatFloat S (S k) VNil b
  | k :: x :: v' => rawmap_pairs v' (pair growcap formatFloat S (S k) x b)
  end.

(** The text a numeric value is formatted to, straight into [b.buf]. *)
Definition numeric_text (v : value) : option gostring :=
  match v with
  | VInt x => Some (formatInt x)
  | VUint x => Some (formatUint x)
  | VFloat32 x => Some (formatFloat x 32)
  | VFloat64 x => Some (formatFloat x 64)
  | _ => None
  end.

End Reference.

(** The lock protocol between two states of one line: nothing reached
    the mutex or the stream, or the buffer now holds the mutex, having
    taken it first if it did not hold it, and only writes followed. *)
Definition flows (b b' : buffer) : Prop :=
  (trace b' = trace b /\ locked b' = locked b) \/
  (locked b' = true /\
   exists ws, trace b' =
     trace b ++ (if locked b then [] else [EvLock]) ++ map EvWrite ws).

(** Decimal digits and the number they spell. *)
Definition is_digit (c : byte) : bool :=
  (48 <=? Byte.to_N c)%N && (Byte.to_N c <=? 57)%N.

Definition dec_value (s : gostring) : Z :=
  fold_left (fun a c => 10 * a + (Z.of_N (Byte.to_N c) - 48)) s 0.


(** [txt] is [x] in its natural width: digits only, no leading zero
    but for zero itself. *)
Definition natural (txt : gostring) (x : Z) : Prop :=
  txt <> [] /\ forallb is_digit txt = true /\ dec_value txt = x /\
  (1 <= x -> hd x30 txt <> x30).


(** One byte, as the loop of [escape] treats it. *)
Definition escape_byte (c : byte) : gostring :=
  if noEsc c then [c] else nextEsc c.

(** The two bytes [int2] stores and the text [int] leaves behind the
    bytes that were there. *)
Definition int2_text (val : Z) : gostring :=
  [byte_of_Z (48 + Z.quot val 10); byte_of_Z (48 + Z.rem val 10)].

Definition int_text (val digits : Z) : gostring :=
  repeat x30 (Z.to_nat (digits - len (formatInt val))) ++ formatInt val.


(** The numbers from 0 up to, not including, [n]. *)
Definition upto (n : nat) : list Z := map Z.of_nat (seq 0 n).

(** The text of a timestamp, field after field as [timestamp] lays it
    down. *)
Definition timestamp_text (now : utc) : gostring :=
  dq ++ formatInt (year now)
     ++ bs "-" ++ int2_text (month now)
     ++ bs "-" ++ int2_text (day now)
     ++ bs " " ++ int2_text (hour now)
     ++ bs ":" ++ int2_text (minute now)
     ++ bs ":" ++ int2_text (second now)
     ++ bs "." ++ int_text (Z.quot (nanosecond now) 1000000) 3
     ++ bs "Z" ++ dq.

(** ** Further notions *)

(** The slice [b.buf] lies in the scratch array. *)
Definition in_scratch (b : buffer) : Prop :=
  cap b = scratch_cap /\ len (buf b) <= cap b.

(** An operation whose effect on the line depends on the state of the
    buffer through the pending delimiter only: it adds a text and leaves
    a delimiter that the delimiter it found determines. *)
Definition appends (f : buffer -> buffer) : Prop :=
  forall d, exists out d',
    forall b, delim b = d -> emitted (f b) = emitted b ++ out /\ delim (f b) = d'.

(** Bytes from 0x20 up. *)
Definition printable (c : byte) : bool := (32 <=? Byte.to_N c)%N.

(** A JSON string: the escaped text between quotes. *)
Definition quoted (s : gostring) : gostring := dq ++ spec_escape s ++ dq.

(** Texts in a row with a separator between them. *)
Fixpoint join (sep : gostring) (l : list gostring) : gostring :=
  match l with
  | [] => []
  | [x] => x
  | x :: l' => x ++ sep ++ join sep l'
  end.

(** The maps [scalar] passes over in silence. *)
Definition is_empty_amap (v : value) : bool :=
  match v with
  | VAMap None => true
  | VAMap (Some []) => true
  | _ => false
  end.

(** A history in which [outMu] is locked only when free and unlocked
    only when held, from a mutex that is held or not. *)
Fixpoint balanced_from (h : bool) (t : list event) : bool :=
  match t with
  | [] => true
  | EvLock :: t' => negb h && balanced_from true t'
  | EvUnlock :: t' => h && balanced_from false t'
  | EvWrite _ :: t' => balanced_from h t'
  end.

Definition balanced (t : list event) : bool := balanced_from false t.

(** The flag [locked] tells the truth and the history is in order. *)
Definition mutex_ok (b : buffer) : Prop :=
  balanced (trace b) = true /\ held (trace b) = locked b.

Section Sessions.

Variable growcap : Z -> Z -> Z.
Variable formatFloat : spec_float -> Z -> gostring.
Variable S : value -> gostring.

(** The life of a pooled buffer: lines composed and released, one after
    the other. *)
Inductive runs : buffer -> buffer -> Prop :=
| runs_nil b : runs b b
| runs_step b b' b'' :
    runs b b' -> step growcap formatFloat S b' b'' -> runs b b''
| runs_unlock b b' : runs b b' -> runs b (unlock b').

End Sessions.

(** ** Severities *)

(** [func GcpLevelName(lev string) string], lines 461-480.  [None] is the
    run-time panic of [lev[0]] on the empty string. *)
Definition GcpLevelName (lev : gostring) : option gostring :=
  match lev with
  | [] => None
  | c :: _ =>
      Some match c with
           | x50 | x45 => bs "600"
           | x46 => bs "500"
           | x57 => bs "400"
           | x4e => bs "300"
           | x41 | x49 => bs "200"
           | x54 | x44 | x4f | x47 => bs "100"
           | _ => bs "0"
           end
  end.




(** The level names of Lager that the comment maps. *)
Definition lager_levels : list gostring :=
  [bs "Panic"; bs "Exit"; bs "Fail"; bs "Warn"; bs "Note"; bs "Access";
   bs "Info"; bs "Trace"; bs "Debug"; bs "Obj"; bs "Guts"].

(** Equality of byte strings, decided. *)
Definition gostring_eqb (x y : gostring) : bool :=
  if list_eq_dec Byte.byte_eq_dec x y then true else false.

(** ** The project ID *)

(** How the request to the metadata server ends. *)
Inductive lookup :=
| NewRequestFails (err : gostring)
| DoFails (err : gostring)
| ReadAllFails (err : gostring)
| Body (b : gostring).

(** The errors [GcpProjectID] returns, each wrapping the error it got. *)
Inductive project_error :=
| Broken (err : gostring)
| CantGet (err : gostring)
| CantRead (err : gostring).

(** [func GcpProjectID(ctx Ctx) (string, error)], with the package
    variable [projectID] passed in and out, and the environment variable
    [GCP_PROJECT_ID] and the outcome of the request as arguments.  The
    result is the new [projectID] and the returned pair. *)
Definition GcpProjectID (projectID env : gostring) (net : lookup)
  : gostring * (gostring * option project_error) :=
  let projectID := match projectID with [] => env | _ => projectID end in
  match projectID with
  | [] =>
      match net with
      | NewRequestFails err => (projectID, ([], Some (Broken err)))
      | DoFails err => (projectID, ([], Some (CantGet err)))
      | ReadAllFails err => (projectID, ([], Some (CantRead err)))
      | Body b => (b, (b, None))
      end
  | _ => (projectID, (projectID, None))
  end.

(** ** The fast path *)

(** A buffer in the scratch array that has not touched the mutex or the
    stream. *)
Definition quiet (b : buffer) : Prop :=
  trace b = [] /\ locked b = false /\ cap b = scratch_cap.

(** From [b] to [b'] the line only grows, and if [b] was quiet and the
    line at [b'] leaves 64 bytes of the scratch array free, [b'] is
    quiet too. *)
Definition eases (b b' : buffer) : Prop :=
  (exists out, emitted b' = emitted b ++ out) /\
  (quiet b -> len (emitted b') + 64 <= scratch_cap -> quiet b').

(** Keys in strictly ascending order. *)
Fixpoint ascending (ks : list gostring) : bool :=
  match ks with
  | [] => true
  | k :: ks' =>
      match ks' with
      | [] => true
      | k' :: _ => str_ltb k k'
      end && ascending ks'
  end.

Section Calls.

Variable growcap : Z -> Z -> Z.
Variable formatFloat : spec_float -> Z -> gostring.
Variable S : value -> gostring.

(** One call on the buffer by the code that composes a line: any method
    but [lock], which only the methods themselves call. *)
Inductive call : buffer -> buffer -> Prop :=
| call_write strs b : call b (write strs b)
| call_writeBytes s b : call b (writeBytes growcap s b)
| call_quote s b : call b (quote s b)
| call_quoteBytes s b : call b (quoteBytes growcap s b)
| call_escape s b : call b (escape s b)
| call_escapeBytes s b : call b (escapeBytes growcap s b)
| call_int2 val b b' : int2 val b = Some b' -> call b b'
| call_int val digits b b' : int growcap val digits b = Some b' -> call b b'
| call_timestamp now b b' : timestamp growcap now b = Some b' -> call b b'
| call_open punct b : call b (open punct b)
| call_colon b : call b (colon b)
| call_close punct b : call b (close punct b)
| call_pair k v b : call b (pair growcap formatFloat S k v b)
| call_pairs m b : call b (pairs growcap formatFloat S m b)
| call_scalar v b : call b (scalar growcap formatFloat S v b).

Inductive calls : buffer -> buffer -> Prop :=
| calls_nil b : calls b b
| calls_snoc b b' b'' : calls b b' -> call b' b'' -> calls b b''.

(** One call of the encoder: the methods that leave the slice where it
    is, that is all but [int2], [int] and [timestamp]. *)
Inductive encodes1 : buffer -> buffer -> Prop :=
| enc_lock b : encodes1 b (lock b)
| enc_write strs b : encodes1 b (write strs b)
| enc_writeBytes s b : encodes1 b (writeBytes growcap s b)
| enc_quote s b : encodes1 b (quote s b)
| enc_quoteBytes s b : encodes1 b (quoteBytes growcap s b)
| enc_escape s b : encodes1 b (escape s b)
| enc_escapeBytes s b : encodes1 b (escapeBytes growcap s b)
| enc_open punct b : encodes1 b (open punct b)
| enc_colon b : encodes1 b (colon b)
| enc_close punct b : encodes1 b (close punct b)
| enc_pair k v b : encodes1 b (pair growcap formatFloat S k v b)
| enc_pairs m b : encodes1 b (pairs growcap formatFloat S m b)
| enc_scalar v b : encodes1 b (scalar growcap formatFloat S v b).

Inductive encodes : buffer -> buffer -> Prop :=
| encodes_nil b : encodes b b
| encodes_snoc b b' b'' : encodes b b' -> encodes1 b' b'' -> encodes b b''.

End Calls.

(** ** Instances for the examples *)

(** A runtime to run the engine with: a slice that has to move doubles
    the length it needs, a float is taken to format as [0], and the text
    of a key is that of a string, a byte slice or an error, empty
    otherwise. *)
Definition growcap_twice (old needed : Z) : Z := 2 * needed.

Definition formatFloat_zero (f : spec_float) (bitSize : Z) : gostring := bs "0".

Definition S_text (v : value) : gostring :=
  match v with
  | VString s => s
  | VBytes s => s
  | VError msg => msg
  | _ => []
  end.

(** A line in one string longer than the scratch region. *)
Definition long_line : buffer := write [repeat x78 (Z.to_nat 20000)] newBuffer.

(** A short line. *)
Definition short_line : buffer := quote (bs "hello") newBuffer.

(** A line of 16380 bytes, then the number 1: 16381 bytes in all. *)
Definition near_full_line : buffer :=
  scalar growcap_twice formatFloat_zero S_text (VInt 1)
    (write [repeat x78 (Z.to_nat 16380)] newBuffer).

(** The ordered map with [a], the number 1, and [b], the string made of [x], a double
    quote and [y]. *)
Definition amap_ab : value :=
  VAMap (Some [(bs "a", VInt 1); (bs "b", VString (bs "x" ++ dq ++ bs "y"))]).


(** A buffer with 22 bytes left and an instant 5 ms into its second. *)
Definition nearly_full : buffer := set_buf (repeat x78 (Z.to_nat 16362)) newBuffer.
Definition instant_5ms : utc := mkUtc 2024 3 7 8 9 10 5000000.

(** * Properties *)

(** ** Lengths *)

Lemma len_app (x y : gostring) : len (x ++ y) = len x + len y.
Proof. unfold len. rewrite length_app. lia. Qed.

Lemma len_nonneg (x : gostring) : 0 <= len x.
Proof. unfold len. lia. Qed.

Lemma len_nil : len [] = 0.
Proof. reflexivity. Qed.

Lemma len_pos_iff (x : gostring) : (0 <? len x) = negb (match x with [] => true | _ => false end).
Proof. destruct x; reflexivity. Qed.

(** ** The history of calls *)

Lemma written_app (t u : list event) : written (t ++ u) = written t ++ written u.
Proof.
  induction t as [|e t IH]; simpl; [reflexivity|].
  destruct e; simpl; rewrite IH, ?app_assoc; reflexivity.
Qed.

Lemma written_writes (ws : list gostring) : written (map EvWrite ws) = concat ws.
Proof. induction ws; simpl; congruence. Qed.

Lemma held_app (t u : list event) :
  held (t ++ u) = fold_left (fun h e => match e with
                                        | EvLock => true
                                        | EvUnlock => false
                                        | EvWrite _ => h
                                        end) u (held t).
Proof. unfold held. apply fold_left_app. Qed.

Lemma held_writes (ws : list gostring) (h : bool) :
  fold_left (fun h e => match e with
                        | EvLock => true
                        | EvUnlock => false
                        | EvWrite _ => h
                        end) (map EvWrite ws) h = h.
Proof. induction ws; simpl; auto. Qed.

(** ** [lock] and the primitive writes, field by field *)

Lemma lock_locked b : locked (lock b) = true.
Proof. unfold lock. destruct (locked b) eqn:E; simpl; destruct (0 <? _); simpl; auto. Qed.

Lemma lock_delim b : delim (lock b) = delim b.
Proof. unfold lock. destruct (locked b); simpl; destruct (0 <? _); reflexivity. Qed.

Lemma lock_buf b : buf (lock b) = [].
Proof.
  unfold lock. destruct (locked b); simpl; destruct (buf b) eqn:E; simpl; auto.
Qed.

Lemma lock_trace b :
  trace (lock b) =
  trace b ++ (if locked b then [] else [EvLock])
          ++ map EvWrite (match buf b with [] => [] | _ => [buf b] end).
Proof.
  unfold lock. destruct (locked b); simpl; destruct (buf b) eqn:E; simpl;
    rewrite ?E, ?app_nil_r, <- ?app_assoc; reflexivity.
Qed.

Lemma lock_cap b :
  cap (lock b) = match buf b with [] => cap b | _ => scratch_cap end.
Proof. unfold lock. destruct (locked b); simpl; destruct (buf b); reflexivity. Qed.

Lemma lock_emitted b : emitted (lock b) = emitted b.
Proof.
  unfold emitted. rewrite lock_trace, lock_buf, !written_app.
  destruct (locked b), (buf b); simpl; rewrite ?app_nil_r; reflexivity.
Qed.

Lemma lock_flows b : flows b (lock b).
Proof.
  right. split; [apply lock_locked|].
  eexists. apply lock_trace.
Qed.

(** ** The protocol relation *)

Lemma flows_refl b : flows b b.
Proof. left; auto. Qed.

Lemma flows_trans b1 b2 b3 : flows b1 b2 -> flows b2 b3 -> flows b1 b3.
Proof.
  intros [[Ht Hl]|[Hl [ws Ht]]] [[Ht' Hl']|[Hl' [ws' Ht']]].
  - left; split; congruence.
  - right; split; [assumption|]. exists ws'. rewrite Ht', Ht, Hl. reflexivity.
  - right; split; [congruence|]. exists ws. congruence.
  - right; split; [assumption|]. exists (ws ++ ws').
    rewrite Ht', Hl, Ht, map_app. simpl. rewrite <- !app_assoc. reflexivity.
Qed.

(** Only the history and the lock flag matter to the protocol. *)
Lemma flows_same b b1 b2 :
  trace b2 = trace b1 -> locked b2 = locked b1 -> flows b b1 -> flows b b2.
Proof.
  intros Ht Hl [[H1 H2]|[H1 [ws H2]]].
  - left; split; congruence.
  - right; split; [congruence|]. exists ws. congruence.
Qed.

(** A write by a buffer that holds the mutex keeps to the protocol. *)
Lemma flows_emit_write b b1 s :
  locked b1 = true -> flows b b1 -> flows b (emit (EvWrite s) b1).
Proof.
  intros Hl H. apply flows_trans with b1; [assumption|].
  right; split; [assumption|]. exists [s]. simpl. rewrite Hl. reflexivity.
Qed.

Lemma write1_flows s b : flows b (write1 s b).
Proof.
  unfold write1.
  destruct (cap b <? len (buf b) + len s) eqn:E1.
  - destruct (cap (lock b) <? len s).
    + apply flows_emit_write; [apply lock_locked | apply lock_flows].
    + eapply flows_same; [| | apply lock_flows]; reflexivity.
  - destruct (cap b <? len s) eqn:E2.
    + pose proof (len_nonneg (buf b)). lia.
    + left; split; reflexivity.
Qed.

(** No byte is lost or reordered: a direct write finds the buffer empty. *)
Lemma write1_emitted s b : emitted (write1 s b) = emitted b ++ s.
Proof.
  unfold write1.
  destruct (cap b <? len (buf b) + len s) eqn:E1.
  - rewrite <- (lock_emitted b).
    destruct (cap (lock b) <? len s); unfold emitted; simpl.
    + rewrite written_app, lock_buf. simpl. rewrite !app_nil_r. reflexivity.
    + apply app_assoc.
  - destruct (cap b <? len s) eqn:E2.
    + pose proof (len_nonneg (buf b)). lia.
    + unfold emitted; simpl. apply app_assoc.
Qed.

Lemma write1_delim s b : delim (write1 s b) = delim b.
Proof.
  unfold write1.
  destruct (cap b <? _); [destruct (cap (lock b) <? _)|destruct (cap b <? _)];
    simpl; rewrite ?lock_delim; reflexivity.
Qed.

(** [write1] keeps the slice within its capacity, so that the slice
    expression [b.buf[0:will]] of [write] is always in range. *)
Lemma write_reslice_in_range s b :
  let b1 := if cap b <? len (buf b) + len s then lock b else b in
  (cap b1 <? len s) = false -> len (buf b1) + len s <= cap b1.
Proof.
  simpl. destruct (cap b <? len (buf b) + len s) eqn:E1; intros E2.
  - rewrite lock_buf, len_nil. lia.
  - lia.
Qed.

Lemma write_nil b : write [] b = b.
Proof. reflexivity. Qed.

Lemma write_cons s strs b : write (s :: strs) b = write strs (write1 s b).
Proof. reflexivity. Qed.

Lemma write_flows strs b : flows b (write strs b).
Proof.
  revert b. induction strs as [|s strs IH]; intros b.
  - apply flows_refl.
  - rewrite write_cons. eapply flows_trans; [apply write1_flows | apply IH].
Qed.

Lemma write_emitted strs b : emitted (write strs b) = emitted b ++ concat strs.
Proof.
  revert b. induction strs as [|s strs IH]; intros b; simpl.
  - rewrite app_nil_r. reflexivity.
  - change (emitted (write strs (write1 s b)) = emitted b ++ s ++ concat strs).
    rewrite IH, write1_emitted, app_assoc. reflexivity.
Qed.

Lemma write_delim strs b : delim (write strs b) = delim b.
Proof.
  revert b. induction strs as [|s strs IH]; intros b; [reflexivity|].
  rewrite write_cons, IH. apply write1_delim.
Qed.

(** ** The escaper *)

Lemma escape_loop_emitted rest : forall run b,
  emitted (escape_loop run rest b) =
  emitted b ++ run ++ flat_map escape_byte rest.
Proof.
  induction rest as [|c rest IH]; intros run b; simpl.
  - rewrite write1_emitted, app_nil_r. reflexivity.
  - unfold escape_byte at 1. destruct (noEsc c).
    + rewrite IH, <- app_assoc. reflexivity.
    + rewrite IH. change (write [nextEsc c] (write [run] b))
        with (write1 (nextEsc c) (write1 run b)).
      rewrite !write1_emitted. simpl. rewrite <- !app_assoc. reflexivity.
Qed.

Lemma escape_loop_flows rest : forall run b, flows b (escape_loop run rest b).
Proof.
  induction rest as [|c rest IH]; intros run b; simpl.
  - apply write1_flows.
  - destruct (noEsc c); [apply IH|].
    eapply flows_trans; [|apply IH].
    eapply flows_trans; apply write1_flows.
Qed.

Lemma escape_loop_delim rest : forall run b,
  delim (escape_loop run rest b) = delim b.
Proof.
  induction rest as [|c rest IH]; intros run b; simpl.
  - apply write1_delim.
  - destruct (noEsc c); rewrite IH; [reflexivity|].
    change (write [nextEsc c] (write [run] b))
      with (write1 (nextEsc c) (write1 run b)).
    rewrite !write1_delim. reflexivity.
Qed.

(** The switch and table of the code against the words of the spec. *)
Lemma escape_byte_spec c : escape_byte c = spec_escape_byte c.
Proof. destruct c; reflexivity. Qed.

Lemma escape_emitted s b : emitted (escape s b) = emitted b ++ spec_escape s.
Proof.
  unfold escape. rewrite escape_loop_emitted. simpl. f_equal.
  unfold spec_escape. induction s as [|c s IH]; simpl; [reflexivity|].
  rewrite IH, escape_byte_spec. reflexivity.
Qed.

(** C2.  For every input string and every buffer, [escape] adds to the
    line exactly the concatenation, in input order, of the escapings of
    its bytes as the spec words them: a byte from 0x20 up other than the
    double quote and the backslash unchanged, the double quote, the
    backslash, backspace, form feed, newline, carriage return and tab as
    their two-character escapes, and any other byte below 0x20 as
    [\u00XX] in two lowercase hexadecimal digits. *)
Theorem escape_refines_spec (s : gostring) (b : buffer) :
  emitted (escape s b) = emitted b ++ flat_map spec_escape_byte s /\
  (forall c, spec_escape_byte c = [c] \/
             (Byte.to_N c <? 32)%N = true \/ c = x22 \/ c = x5c) /\
  spec_escape_byte x22 = bsl ++ dq /\
  spec_escape_byte x5c = bsl ++ bsl /\
  spec_escape_byte x08 = bsl ++ bs "b" /\
  spec_escape_byte x0c = bsl ++ bs "f" /\
  spec_escape_byte x0a = bsl ++ bs "n" /\
  spec_escape_byte x0d = bsl ++ bs "r" /\
  spec_escape_byte x09 = bsl ++ bs "t" /\
  spec_escape_byte x00 = bsl ++ bs "u0000" /\
  spec_escape_byte x1f = bsl ++ bs "u001f".
Proof.
  split; [apply escape_emitted|].
  split; [|repeat split; reflexivity].
  intros c. destruct c; first [left; reflexivity | right; left; reflexivity
                              | right; right; left; reflexivity
                              | right; right; right; reflexivity].
Qed.

(** ** Reading the escaped text back *)

Lemma json_unescape_single c t :
  utf8_lead c = Single ->
  json_unescape (spec_escape_byte c ++ t) = prepend [c] (json_unescape t).
Proof. destruct c; intros H; try discriminate H; reflexivity. Qed.

Lemma spec_escape_byte_raw c :
  (128 <=? Byte.to_N c)%N = true -> spec_escape_byte c = [c].
Proof. destruct c; intros H; try discriminate H; reflexivity. Qed.

Lemma cont_raw c : cont c = true -> spec_escape_byte c = [c].
Proof.
  intros H. apply spec_escape_byte_raw. unfold cont in H.
  apply andb_true_iff in H. tauto.
Qed.

Lemma second_ok_cont c c1 : second_ok c c1 = true -> cont c1 = true.
Proof. unfold second_ok. intros H. apply andb_true_iff in H. tauto. Qed.

Lemma lead_raw c :
  utf8_lead c <> Single ->
  spec_escape_byte c = [c] /\
  decode_lead c = match utf8_lead c with
                  | Single => DPlain
                  | Lead2 => DLead2
                  | Lead3 => DLead3
                  | Lead4 => DLead4
                  | NotLead => DInvalid
                  end.
Proof. destruct c; intros H; try (exfalso; apply H; reflexivity); split; reflexivity. Qed.

Lemma spec_escape_cons c s :
  spec_escape (c :: s) = spec_escape_byte c ++ spec_escape s.
Proof. reflexivity. Qed.

Lemma json_unescape_valid n : forall s,
  (length s <= n)%nat -> valid_utf8 s = true ->
  json_unescape (spec_escape s) = Some s.
Proof.
  induction n as [|n IH]; intros [|c rest] Hn Hv; try reflexivity;
    [simpl in Hn; lia|].
  simpl in Hn. cbn [valid_utf8] in Hv.
  destruct (utf8_lead c) eqn:K.
  - rewrite spec_escape_cons, (json_unescape_single c _ K),
      (IH rest ltac:(lia) Hv). reflexivity.
  - destruct rest as [|c1 r1]; [discriminate|].
    apply andb_true_iff in Hv. destruct Hv as [H1 Hv]. simpl in Hn.
    destruct (lead_raw c ltac:(congruence)) as [Ec Ed]. rewrite K in Ed.
    rewrite !spec_escape_cons, Ec, (cont_raw c1 H1).
    cbn [app json_unescape]. rewrite Ed, H1, (IH r1 ltac:(lia) Hv).
    reflexivity.
  - destruct rest as [|c1 [|c2 r2]]; try discriminate.
    rewrite !andb_true_iff in Hv. destruct Hv as [[H1 H2] Hv]. simpl in Hn.
    destruct (lead_raw c ltac:(congruence)) as [Ec Ed]. rewrite K in Ed.
    rewrite !spec_escape_cons, Ec, (cont_raw c1 (second_ok_cont _ _ H1)),
      (cont_raw c2 H2).
    cbn [app json_unescape]. rewrite Ed, H1, H2, (IH r2 ltac:(lia) Hv).
    reflexivity.
  - destruct rest as [|c1 [|c2 [|c3 r3]]]; try discriminate.
    rewrite !andb_true_iff in Hv. destruct Hv as [[[H1 H2] H3] Hv].
    simpl in Hn.
    destruct (lead_raw c ltac:(congruence)) as [Ec Ed]. rewrite K in Ed.
    rewrite !spec_escape_cons, Ec, (cont_raw c1 (second_ok_cont _ _ H1)),
      (cont_raw c2 H2), (cont_raw c3 H3).
    cbn [app json_unescape]. rewrite Ed, H1, H2, H3, (IH r3 ltac:(lia) Hv).
    reflexivity.
  - discriminate.
Qed.

Lemma json_unescape_spec_escape s :
  valid_utf8 s = true -> json_unescape (spec_escape s) = Some s.
Proof. apply (json_unescape_valid (length s)). lia. Qed.

(** C6, as the code has it.  For every text in well-formed UTF-8, with or
    without quotes, backslashes and control characters, un-escaping what
    [escape] wrote, as a JSON parser does, gives the text back: in a new
    buffer and in any other.  The escaper passes the bytes from 0x80 up
    as they are, so a byte string that is not UTF-8 is not given back. *)
Theorem escape_roundtrip (s : gostring) :
  valid_utf8 s = true ->
  json_unescape (emitted (escape s newBuffer)) = Some s /\
  (forall b, exists out, emitted (escape s b) = emitted b ++ out /\
                         json_unescape out = Some s).
Proof.
  intros Hv. split.
  - rewrite escape_emitted. apply json_unescape_spec_escape, Hv.
  - intros b. exists (spec_escape s).
    split; [apply escape_emitted | apply json_unescape_spec_escape, Hv].
Qed.

(** ** Nested induction on values *)

Lemma value_ind_nested (P : value -> Prop) :
  P VNil ->
  (forall v, P (VString v)) ->
  (forall v, P (VBytes v)) ->
  (forall v, P (VInt v)) ->
  (forall v, P (VUint v)) ->
  (forall v, P (VFloat32 v)) ->
  (forall v, P (VFloat64 v)) ->
  (forall v, P (VBool v)) ->
  (forall v, P (VStrings v)) ->
  (forall v, Forall P v -> P (VAList v)) ->
  (forall v, Forall P v -> P (VRawMap v)) ->
  P (VAMap None) ->
  (forall m, Forall (fun kv => P (snd kv)) m -> P (VAMap (Some m))) ->
  (forall m, Forall (fun kv => P (snd kv)) m -> P (VMap m)) ->
  (forall msg, P (VError msg)) ->
  (forall r, P (VOther r)) ->
  forall v, P v.
Proof.
  intros HNil HString HBytes HInt HUint HF32 HF64 HBool HStrings
         HAList HRawMap HAMapNil HAMap HMap HError HOther.
  fix IH 1.
  intros [ | | | | | | | | | l | l | [m|] | m | | ];
    [ apply HNil | apply HString | apply HBytes | apply HInt | apply HUint
    | apply HF32 | apply HF64 | apply HBool | apply HStrings | | | | apply HAMapNil
    | | apply HError | apply HOther ].
  - apply HAList. induction l as [|x l IHl]; constructor; [apply IH | exact IHl].
  - apply HRawMap. induction l as [|x l IHl]; constructor; [apply IH | exact IHl].
  - apply HAMap.
    induction m as [|[k x] m IHm]; constructor; [apply IH | exact IHm].
  - apply HMap.
    induction m as [|[k x] m IHm]; constructor; [apply IH | exact IHm].
Qed.

Section Facts.

Variable growcap : Z -> Z -> Z.
Variable formatFloat : spec_float -> Z -> gostring.
Variable S : value -> gostring.

Local Abbreviation goappend := (goappend growcap).
Local Abbreviation writeBytes := (writeBytes growcap).
Local Abbreviation escapeBytes := (escapeBytes growcap).
Local Abbreviation escapeBytes_loop := (escapeBytes_loop growcap).
Local Abbreviation quoteBytes := (quoteBytes growcap).
Local Abbreviation int := (int growcap).
Local Abbreviation timestamp := (timestamp growcap).
Local Abbreviation scalar := (scalar growcap formatFloat S).
Local Abbreviation pair := (pair growcap formatFloat S).
Local Abbreviation pairs := (pairs growcap formatFloat S).
Local Abbreviation rawmap_loop := (rawmap_loop growcap formatFloat S).
Local Abbreviation rawmap_pairs := (rawmap_pairs growcap formatFloat S).
Local Abbreviation step := (step growcap formatFloat S).
Local Abbreviation composes := (composes growcap formatFloat S).

(** ** Every operation keeps to the protocol *)

Lemma set_delim_flows d b0 b : flows b0 b -> flows b0 (set_delim d b).
Proof. apply flows_same; reflexivity. Qed.

Lemma set_buf_flows s b0 b : flows b0 b -> flows b0 (set_buf s b).
Proof. apply flows_same; reflexivity. Qed.

Lemma goappend_flows s b0 b : flows b0 b -> flows b0 (goappend s b).
Proof.
  unfold goappend. destruct (_ <=? _); apply flows_same; reflexivity.
Qed.

Lemma lock_flows' b0 b : flows b0 b -> flows b0 (lock b).
Proof. intros H. eapply flows_trans; [exact H | apply lock_flows]. Qed.

Lemma write1_flows' s b0 b : flows b0 b -> flows b0 (write1 s b).
Proof. intros H. eapply flows_trans; [exact H | apply write1_flows]. Qed.

Lemma write_flows' strs b0 b : flows b0 b -> flows b0 (write strs b).
Proof. intros H. eapply flows_trans; [exact H | apply write_flows]. Qed.

Lemma writeBytes_flows' s b0 b : flows b0 b -> flows b0 (writeBytes s b).
Proof.
  intros H. unfold writeBytes.
  destruct (cap b <? len (buf b) + len s) eqn:E1.
  - destruct (cap (lock b) <? len s).
    + apply flows_emit_write; [apply lock_locked | apply lock_flows', H].
    + apply goappend_flows, lock_flows', H.
  - destruct (cap b <? len s) eqn:E2.
    + pose proof (len_nonneg (buf b)). lia.
    + apply goappend_flows, H.
Qed.

Lemma escape_flows' s b0 b : flows b0 b -> flows b0 (escape s b).
Proof. intros H. eapply flows_trans; [exact H | apply escape_loop_flows]. Qed.

Lemma escapeBytes_loop_flows rest : forall run b0 b,
  flows b0 b -> flows b0 (escapeBytes_loop run rest b).
Proof.
  induction rest as [|c rest IH]; intros run b0 b H; simpl.
  - apply writeBytes_flows', H.
  - destruct (noEsc c); apply IH; [exact H|].
    apply write1_flows', writeBytes_flows', H.
Qed.

Lemma escapeBytes_flows' s b0 b : flows b0 b -> flows b0 (escapeBytes s b).
Proof. apply escapeBytes_loop_flows. Qed.

Create HintDb flows.
#[local] Hint Resolve flows_refl set_delim_flows set_buf_flows goappend_flows
  lock_flows' write1_flows' write_flows' writeBytes_flows' escape_flows'
  escapeBytes_flows' : flows.

Lemma quote_flows' s b0 b : flows b0 b -> flows b0 (quote s b).
Proof. unfold quote. auto with flows. Qed.

Lemma quoteBytes_flows' s b0 b : flows b0 b -> flows b0 (quoteBytes s b).
Proof. unfold quoteBytes. auto with flows. Qed.

Lemma open_flows' p b0 b : flows b0 b -> flows b0 (open p b).
Proof. unfold open. auto with flows. Qed.

Lemma colon_flows' b0 b : flows b0 b -> flows b0 (colon b).
Proof. unfold colon. auto with flows. Qed.

Lemma close_flows' p b0 b : flows b0 b -> flows b0 (close p b).
Proof. unfold close. auto with flows. Qed.

Lemma scalar_head_flows' b0 b : flows b0 b -> flows b0 (scalar_head b).
Proof. unfold scalar_head. intros H. destruct (_ <? _); auto with flows. Qed.

#[local] Hint Resolve quote_flows' quoteBytes_flows' open_flows' colon_flows'
  close_flows' scalar_head_flows' : flows.

Lemma scalar_string_flows' s b0 b : flows b0 b -> flows b0 (scalar_string s b).
Proof. unfold scalar_string. auto with flows. Qed.

Lemma scalar_nil_flows' b0 b : flows b0 b -> flows b0 (scalar_nil b).
Proof. unfold scalar_nil. auto with flows. Qed.

#[local] Hint Resolve scalar_string_flows' scalar_nil_flows' : flows.

(** A loop keeps to the protocol when each round does. *)
Lemma fold_flows {A} (f : buffer -> A -> buffer) (l : list A) :
  Forall (fun x => forall b0 b, flows b0 b -> flows b0 (f b x)) l ->
  forall b0 b, flows b0 b -> flows b0 (fold_left f l b).
Proof.
  induction 1 as [|x l Hx _ IH]; intros b0 b H; simpl; [exact H|].
  apply IH, Hx, H.
Qed.

Lemma insert_key_Forall {A} (Q : gostring * A -> Prop) e l :
  Q e -> Forall Q l -> Forall Q (insert_key e l).
Proof.
  intros He Hl. induction Hl as [|e' l He' Hl IH]; simpl.
  - constructor; auto.
  - destruct (str_ltb _ _); repeat constructor; auto.
Qed.

Lemma sort_keys_Forall {A} (Q : gostring * A -> Prop) l :
  Forall Q l -> Forall Q (sort_keys l).
Proof.
  induction 1; simpl; [constructor|]. apply insert_key_Forall; assumption.
Qed.

(** ** The cases of [scalar], restated with the functions they call *)

Lemma scalar_VNil b : scalar VNil b = scalar_nil b.
Proof. reflexivity. Qed.

Lemma scalar_VString v b : scalar (VString v) b = scalar_string v b.
Proof. reflexivity. Qed.

Lemma scalar_VRawMap v b :
  scalar (VRawMap v) b =
  set_delim comma
    (close (bs "}")
       (let b1 := rawmap_loop true v (open (bs "{") (scalar_head b)) in
        if Z.land 1 (len_of v) =? 1 then scalar_nil b1 else b1)).
Proof. reflexivity. Qed.

Lemma scalar_VAMap e m b :
  scalar (VAMap (Some (e :: m))) b =
  set_delim comma
    (close (bs "}") (pairs (Some (e :: m)) (open (bs "{") (scalar_head b)))).
Proof. reflexivity. Qed.

Lemma scalar_VMap m b :
  scalar (VMap m) b =
  set_delim comma
    (close (bs "}")
       (fold_left (fun b kf => snd kf (colon (quote (fst kf) b)))
          (sort_keys (map (fun kv => (fst kv, scalar (snd kv))) m))
          (open (bs "{") (scalar_head b)))).
Proof. reflexivity. Qed.

Lemma rawmap_loop_flows v : 
  Forall (fun x => forall b0 b, flows b0 b -> flows b0 (scalar x b)) v ->
  forall even b0 b, flows b0 b -> flows b0 (rawmap_loop even v b).
Proof.
  induction 1 as [|x v Hx _ IH]; intros even b0 b H; simpl; [exact H|].
  apply IH. destruct even; auto with flows.
Qed.

Lemma scalar_flows' v : forall b0 b, flows b0 b -> flows b0 (scalar v b).
Proof.
  induction v using value_ind_nested; intros b0 b Hb;
    try (cbn [scalar]; auto with flows; fail).
  - (* bool *)
    cbn [scalar]. destruct v; auto with flows.
  - (* []string *)
    cbn [scalar]. apply set_delim_flows, close_flows'.
    apply fold_flows; [|auto with flows].
    apply Forall_forall. intros; auto with flows.
  - (* AList *)
    cbn [scalar]. apply set_delim_flows, close_flows'.
    apply fold_flows; [|auto with flows].
    eapply Forall_impl; [|eassumption]. auto.
  - (* RawMap *)
    rewrite scalar_VRawMap. apply set_delim_flows, close_flows'. cbv zeta.
    assert (flows b0 (rawmap_loop true v (open (bs "{") (scalar_head b))))
      by (apply rawmap_loop_flows; auto with flows).
    destruct (_ =? _); auto with flows.
  - (* AMap *)
    destruct m as [|e m]; [exact Hb|].
    cbn [scalar]. apply set_delim_flows, close_flows'.
    apply fold_flows; [|auto with flows].
    eapply Forall_impl; [|eassumption]. cbv beta. auto with flows.
  - (* map[string]interface{} *)
    rewrite scalar_VMap. apply set_delim_flows, close_flows'.
    apply fold_flows; [|auto with flows].
    apply sort_keys_Forall, Forall_map.
    eapply Forall_impl; [|eassumption]. cbv beta. simpl. auto with flows.
  - (* other *)
    cbn [scalar]. destruct r; auto with flows.
Qed.

#[local] Hint Resolve scalar_flows' : flows.

Lemma pair_flows' k v b0 b : flows b0 b -> flows b0 (pair k v b).
Proof. unfold pair. auto with flows. Qed.

Lemma pairs_flows' m b0 b : flows b0 b -> flows b0 (pairs m b).
Proof.
  destruct m as [m|]; simpl; [|auto].
  apply fold_flows. apply Forall_forall. intros; apply pair_flows'; assumption.
Qed.

Lemma int2_flows' val b0 b b' :
  int2 val b = Some b' -> flows b0 b -> flows b0 b'.
Proof.
  unfold int2. destruct (_ <? _); [discriminate|].
  intros [= <-]. auto with flows.
Qed.

Lemma int_flows' val digits b0 b b' :
  int val digits b = Some b' -> flows b0 b -> flows b0 b'.
Proof.
  unfold int. destruct (_ <? _); [destruct (_ <? _); [discriminate|]|];
    intros [= <-]; auto with flows.
Qed.

Lemma timestamp_flows' now b0 b b' :
  timestamp now b = Some b' -> flows b0 b -> flows b0 b'.
Proof.
  unfold timestamp. intros H Hb.
  repeat match type of H with
         | match ?x with Some _ => _ | None => _ end = _ =>
             let E := fresh "E" in
             destruct x eqn:E; [|discriminate]
         end.
  injection H as <-.
  repeat first
    [ apply set_delim_flows | apply write_flows' | apply write1_flows'
    | apply goappend_flows
    | match goal with
      | E : int2 _ _ = Some ?b |- flows _ ?b => apply (int2_flows' _ _ _ _ E)
      | E : int _ _ _ = Some ?b |- flows _ ?b =>
          apply (int_flows' _ _ _ _ _ E)
      end ].
  destruct (_ <? _); auto with flows.
Qed.

Lemma step_flows b b' : step b b' -> flows b b'.
Proof.
  destruct 1; eauto using flows_refl, pair_flows', pairs_flows', int2_flows',
    int_flows', timestamp_flows' with flows.
Qed.

Lemma composes_flows b b' : composes b b' -> flows b b'.
Proof.
  induction 1 as [b|b b' b'' _ IH Hs]; [apply flows_refl|].
  eapply flows_trans; [exact IH | apply step_flows, Hs].
Qed.

(** ** The bytes and the delimiter after each operation *)

Lemma emitted_set_delim d b : emitted (set_delim d b) = emitted b.
Proof. reflexivity. Qed.

Lemma delim_set_delim d b : delim (set_delim d b) = d.
Proof. reflexivity. Qed.

Lemma quote_emitted s b :
  emitted (quote s b) = emitted b ++ delim b ++ dq ++ spec_escape s ++ dq.
Proof.
  unfold quote. rewrite emitted_set_delim.
  rewrite write_emitted, escape_emitted, write_emitted. simpl.
  rewrite <- !app_assoc, ?app_nil_r. reflexivity.
Qed.

Lemma quote_delim s b : delim (quote s b) = comma.
Proof. reflexivity. Qed.

Lemma open_emitted p b : emitted (open p b) = emitted b ++ delim b ++ p.
Proof.
  unfold open. rewrite emitted_set_delim.
  rewrite write_emitted. simpl. rewrite app_nil_r. reflexivity.
Qed.

Lemma colon_emitted b : emitted (colon b) = emitted b ++ bs ":".
Proof.
  unfold colon. rewrite emitted_set_delim.
  rewrite write_emitted. reflexivity.
Qed.

Lemma close_emitted p b : emitted (close p b) = emitted b ++ p.
Proof.
  unfold close. rewrite emitted_set_delim.
  rewrite write_emitted. simpl. rewrite app_nil_r. reflexivity.
Qed.

Lemma scalar_head_emitted b : emitted (scalar_head b) = emitted b ++ delim b.
Proof.
  unfold scalar_head. cbv zeta. destruct (_ <? _); rewrite ?lock_emitted;
    rewrite emitted_set_delim;
    rewrite write_emitted; simpl; rewrite app_nil_r; reflexivity.
Qed.

Lemma open_delim p b : delim (open p b) = [].
Proof. reflexivity. Qed.

Lemma colon_delim b : delim (colon b) = [].
Proof. reflexivity. Qed.

Lemma close_delim p b : delim (close p b) = comma.
Proof. reflexivity. Qed.

Lemma scalar_head_delim b : delim (scalar_head b) = [].
Proof.
  unfold scalar_head. cbv zeta. destruct (_ <? _); rewrite ?lock_delim; reflexivity.
Qed.

Lemma scalar_nil_emitted b :
  emitted (scalar_nil b) = emitted b ++ delim b ++ bs "null".
Proof.
  unfold scalar_nil. rewrite emitted_set_delim.
  rewrite write_emitted, scalar_head_emitted. simpl.
  rewrite <- !app_assoc. reflexivity.
Qed.

Lemma goappend_emitted s b : emitted (goappend s b) = emitted b ++ s.
Proof.
  unfold goappend, emitted. destruct (_ <=? _); simpl; apply app_assoc.
Qed.

(** ** The lock protocol over a whole line *)

Lemma writes_prefix (ws : list gostring) pre s post :
  map EvWrite ws = pre ++ EvWrite s :: post ->
  exists ws1, pre = map EvWrite ws1.
Proof.
  intros H. apply map_eq_app in H. destruct H as (ws1 & ws2 & _ & H1 & _).
  exists ws1. auto.
Qed.

Lemma unlock_trace b :
  trace (unlock b) =
  trace b ++ map EvWrite (match buf b with [] => [] | _ => [buf b] end)
          ++ (if locked b then [EvUnlock] else []).
Proof.
  unfold unlock. destruct (buf b) eqn:E, (locked b) eqn:L; simpl;
    rewrite ?L, ?E; simpl; rewrite ?L, ?app_nil_r, <- ?app_assoc; reflexivity.
Qed.

Lemma unlock_locked b : locked (unlock b) = false.
Proof.
  unfold unlock. destruct (buf b), (locked b) eqn:L; simpl; rewrite ?L; auto.
Qed.

Lemma unlock_buf b : buf (unlock b) = [].
Proof.
  unfold unlock. destruct (buf b) eqn:E, (locked b) eqn:L; simpl;
    rewrite ?L; auto.
Qed.

Lemma unlock_delim b : delim (unlock b) = delim b.
Proof.
  unfold unlock. destruct (buf b), (locked b) eqn:L; simpl; rewrite ?L; auto.
Qed.

(** What [flows] says of a line from its start. *)
Lemma line_protocol b0 b :
  line_start b0 -> composes b0 b ->
  (trace b = [] /\ locked b = false) \/
  (exists ws, trace b = EvLock :: map EvWrite ws /\ locked b = true).
Proof.
  intros [Hl Ht] Hc. apply composes_flows in Hc.
  destruct Hc as [[H1 H2]|[H1 [ws H2]]].
  - left; split; congruence.
  - right. exists ws. rewrite H2, Ht, Hl. auto.
Qed.

(** C1.  While a line is composed, from a buffer that starts without the
    mutex and through any calls of the engine, every write that reaches
    the stream before the release is made with [outMu] held: the first
    call to leave the buffer is [outMu.Lock()], only writes follow it and
    no [outMu.Unlock()], and the flag [locked] says whether it was made.
    The release then writes the remainder, if any, and only then gives
    the mutex back, if it was taken. *)
Theorem early_writes_hold_the_lock (b0 b : buffer) :
  line_start b0 -> composes b0 b ->
  (forall pre s post, trace b = pre ++ EvWrite s :: post -> held pre = true) /\
  ((trace b = [] /\ locked b = false) \/
   (exists ws, trace b = EvLock :: map EvWrite ws /\ locked b = true)) /\
  locked b = held (trace b) /\
  trace (unlock b) =
    trace b ++ map EvWrite (match buf b with [] => [] | _ => [buf b] end)
            ++ (if locked b then [EvUnlock] else []) /\
  locked (unlock b) = false /\
  held (trace (unlock b)) = false.
Proof.
  intros Hs Hc. pose proof (line_protocol b0 b Hs Hc) as Hp.
  split; [|split; [exact Hp|split; [|split; [apply unlock_trace|split;
                                             [apply unlock_locked|]]]]].
  - intros pre s post E. destruct Hp as [[Ht _]|[ws [Ht _]]].
    + rewrite Ht in E. destruct pre; discriminate.
    + rewrite Ht in E. destruct pre as [|e pre]; [discriminate|].
      injection E as <- E. apply writes_prefix in E. destruct E as [ws1 ->].
      unfold held. simpl. apply held_writes.
  - destruct Hp as [[Ht Hl]|[ws [Ht Hl]]]; rewrite Ht, Hl;
      [reflexivity|]. unfold held. simpl. symmetry. apply held_writes.
  - rewrite unlock_trace.
    destruct Hp as [[Ht Hl]|[ws [Ht Hl]]]; rewrite Ht, Hl.
    + simpl. rewrite app_nil_r. unfold held. apply held_writes.
    + unfold held. rewrite !fold_left_app. reflexivity.
Qed.

(** When no early flush happened while the line was composed, nothing
    reached the mutex or the stream before the release, and the release
    makes at most one write call: exactly one, carrying the whole line,
    when the line is not empty, and none when it is empty. *)
Theorem unflushed_line_single_write (b0 b : buffer) :
  line_start b0 -> buf b0 = [] -> composes b0 b -> locked b = false ->
  trace b = [] /\
  emitted b = buf b /\
  trace (unlock b) = match buf b with [] => [] | _ => [EvWrite (buf b)] end /\
  (buf b <> [] -> writes (trace (unlock b)) = [emitted b]) /\
  held (trace (unlock b)) = false.
Proof.
  intros Hs Hb Hc Hl.
  destruct (line_protocol b0 b Hs Hc) as [[Ht _]|[ws [_ Hl']]]; [|congruence].
  assert (Hu : trace (unlock b) =
               match buf b with [] => [] | _ => [EvWrite (buf b)] end).
  { rewrite unlock_trace, Ht, Hl. destruct (buf b); reflexivity. }
  unfold emitted. rewrite Hu, Ht. simpl.
  repeat split; auto.
  - destruct (buf b); [congruence | reflexivity].
  - destruct (buf b); reflexivity.
Qed.

(** C10.  [unlock] empties the slice, after sending what it held, and
    clears the lock flag; the pending delimiter is as it was, so a buffer
    that goes back to the pool after a closed container or a quoted
    string still holds [comma], not the empty delimiter of a new
    buffer. *)
Theorem unlock_keeps_delim (b : buffer) :
  delim (unlock b) = delim b /\
  buf (unlock b) = [] /\
  locked (unlock b) = false /\
  written (trace (unlock b)) = emitted b /\
  (forall p, delim (unlock (close p b)) = comma) /\
  (forall s, delim (unlock (quote s b)) = comma) /\
  comma <> delim newBuffer.
Proof.
  split; [apply unlock_delim|]. split; [apply unlock_buf|].
  split; [apply unlock_locked|]. split.
  - rewrite unlock_trace, !written_app. unfold emitted. f_equal.
    destruct (buf b), (locked b); simpl; rewrite ?app_nil_r; reflexivity.
  - repeat split; intros; rewrite ?unlock_delim; try reflexivity.
    discriminate.
Qed.

(** ** Values one at a time *)

Lemma scalar_string_emitted s b :
  emitted (scalar_string s b) =
  emitted b ++ delim b ++ dq ++ spec_escape s ++ dq.
Proof.
  unfold scalar_string. rewrite emitted_set_delim.
  rewrite quote_emitted, scalar_head_emitted, scalar_head_delim.
  rewrite <- !app_assoc. reflexivity.
Qed.

Lemma scalar_VInt_emitted x b :
  emitted (scalar (VInt x) b) = emitted b ++ delim b ++ formatInt x.
Proof.
  cbn [scalar]. rewrite emitted_set_delim.
  rewrite goappend_emitted, scalar_head_emitted, <- app_assoc. reflexivity.
Qed.

Lemma scalar_VInt_delim x b : delim (scalar (VInt x) b) = comma.
Proof. reflexivity. Qed.

Lemma pair_emitted_head k v b :
  pair k v b = scalar v (colon (quote k b)) /\
  emitted (colon (quote k b)) =
    emitted b ++ delim b ++ dq ++ spec_escape k ++ dq ++ bs ":" /\
  delim (colon (quote k b)) = [].
Proof.
  split; [reflexivity|]. split; [|reflexivity].
  rewrite colon_emitted, quote_emitted, <- !app_assoc. reflexivity.
Qed.

(** C3.  A nil or empty [AMap] given to [scalar] leaves the buffer as it
    is: no byte, no change of the pending delimiter.  As the value of a
    pair, the quoted key and the colon are already there and stay, the
    pending delimiter is empty, and the opening quote of the next key
    comes right after the colon; a parent with the keys [a], an empty
    map, and [b], the value 2, comes out as an opening brace, the
    quoted [a], a colon, the quoted [b], a colon, 2 and a closing brace. *)
Theorem empty_amap_is_skipped (b : buffer) (k k2 : gostring) :
  scalar (VAMap None) b = b /\
  scalar (VAMap (Some [])) b = b /\
  pair k (VAMap None) b = colon (quote k b) /\
  pair k (VAMap (Some [])) b = colon (quote k b) /\
  delim (pair k (VAMap None) b) = [] /\
  emitted (pair k (VAMap None) b) =
    emitted b ++ delim b ++ dq ++ spec_escape k ++ dq ++ bs ":" /\
  emitted (quote k2 (pair k (VAMap None) b)) =
    emitted b ++ delim b ++ dq ++ spec_escape k ++ dq ++ bs ":"
              ++ dq ++ spec_escape k2 ++ dq /\
  emitted (scalar (VAMap (Some [(bs "a", VAMap (Some []));
                                (bs "b", VInt 2)])) newBuffer) =
    bs "{" ++ dq ++ bs "a" ++ dq ++ bs ":" ++ dq ++ bs "b" ++ dq ++ bs ":2}".
Proof.
  destruct (pair_emitted_head k (VAMap None) b) as (Hp & He & Hd).
  repeat split; try reflexivity.
  - rewrite Hp. exact He.
  - rewrite quote_emitted, Hp. cbn [scalar]. rewrite He, Hd.
    rewrite <- !app_assoc. reflexivity.
Qed.

(** C4, as the code has it.  Scalar-encoding the ordered map with the
    entries [a], the number 1, and [b], the string made of [x], a double
    quote and [y], adds to the line the pending delimiter and then
    exactly: an opening brace, the quoted [a], a colon, 1, a comma and a
    space, the quoted [b], a colon, and in quotes [x], a backslash, a
    double quote and [y], then a closing brace.  The delimiter between
    completed values is [comma], a comma and a space. *)
Theorem amap_example_bytes (b : buffer) :
  emitted (scalar (VAMap (Some [(bs "a", VInt 1);
                                (bs "b", VString (bs "x" ++ dq ++ bs "y"))])) b) =
    emitted b ++ delim b
      ++ bs "{" ++ dq ++ bs "a" ++ dq ++ bs ":1, "
      ++ dq ++ bs "b" ++ dq ++ bs ":" ++ dq ++ bs "x" ++ bsl ++ dq ++ bs "y" ++ dq
      ++ bs "}" /\
  comma = bs ", ".
Proof.
  split; [|reflexivity].
  rewrite scalar_VAMap. rewrite emitted_set_delim.
  rewrite close_emitted. cbn [pairs fold_left fst snd]. unfold pair.
  rewrite scalar_VString, scalar_string_emitted.
  rewrite colon_emitted, quote_emitted.
  rewrite scalar_VInt_delim.
  rewrite scalar_VInt_emitted, colon_emitted, quote_emitted, open_emitted.
  rewrite scalar_head_emitted, scalar_head_delim, !colon_delim, open_delim.
  rewrite <- !app_assoc. reflexivity.
Qed.

(** ** Flat alternating lists *)

Lemma land_1_parity (n : Z) : Z.land 1 (n + 2) = Z.land 1 n.
Proof.
  rewrite !(Z.land_comm 1). change 1 with (Z.ones 1).
  rewrite !Z.land_ones by lia. change (2 ^ 1) with 2.
  replace (n + 2) with (n + 1 * 2) by lia. apply Z.mod_add. lia.
Qed.

Lemma len_of_cons2 {A} (x y : A) (l : list A) :
  len_of (x :: y :: l) = len_of l + 2.
Proof. unfold len_of. simpl length. lia. Qed.

(** The loop on the parity of the index, with the test on the length
    after it, does what the spec says pair by pair. *)
Lemma rawmap_loop_pairs v :
  (forall b,
     (let b1 := rawmap_loop true v b in
      if Z.land 1 (len_of v) =? 1 then scalar_nil b1 else b1) =
     rawmap_pairs v b) /\
  (forall k b,
     (let b1 := rawmap_loop true (k :: v) b in
      if Z.land 1 (len_of (k :: v)) =? 1 then scalar_nil b1 else b1) =
     rawmap_pairs (k :: v) b).
Proof.
  induction v as [|x v [IH1 IH2]].
  - split; reflexivity.
  - split; [apply IH2|]. intros k b. cbv zeta.
    rewrite len_of_cons2, land_1_parity.
    change (rawmap_loop true (k :: x :: v) b)
      with (rawmap_loop true v (pair (S k) x b)).
    change (rawmap_pairs (k :: x :: v) b)
      with (rawmap_pairs v (pair (S k) x b)).
    apply IH1.
Qed.

Lemma rawmap_pairs_odd (kvs : list (value * value)) : forall k b,
  rawmap_pairs (flat_map (fun kv => [fst kv; snd kv]) kvs ++ [k]) b =
  pair (S k) VNil (rawmap_pairs (flat_map (fun kv => [fst kv; snd kv]) kvs) b).
Proof.
  induction kvs as [|[a x] kvs IH]; intros k b; [reflexivity|].
  cbn [flat_map fst snd app].
  change (rawmap_pairs (a :: x :: ?l) b)
    with (rawmap_pairs l (pair (S a) x b)).
  apply IH.
Qed.

Lemma pair_nil_emitted k b :
  emitted (pair k VNil b) =
  emitted b ++ delim b ++ dq ++ spec_escape k ++ dq ++ bs ":null".
Proof.
  destruct (pair_emitted_head k VNil b) as (Hp & He & Hd).
  rewrite Hp, scalar_VNil, scalar_nil_emitted, He, Hd, <- !app_assoc.
  reflexivity.
Qed.

(** C8.  For every flat alternating list, [scalar] writes an object whose
    members are the successive elements taken as key, then value: the
    state it reaches is the one the pairs give between the braces.  When
    the length is odd, the last element is written as a key, quoted and
    escaped, with the value [null]; so the list [k1, 5, k2] comes out as
    an object with the member [k1], 5, a comma and a space, and the
    member [k2], null. *)
Theorem rawmap_keys_then_values (v : list value) (b : buffer) :
  scalar (VRawMap v) b =
    set_delim comma
      (close (bs "}") (rawmap_pairs v (open (bs "{") (scalar_head b)))) /\
  (forall (kvs : list (value * value)) (k : value),
     let members := flat_map (fun kv => [fst kv; snd kv]) kvs in
     let before := rawmap_pairs members (open (bs "{") (scalar_head b)) in
     emitted (scalar (VRawMap (members ++ [k])) b) =
       emitted before ++ delim before
         ++ dq ++ spec_escape (S k) ++ dq ++ bs ":null" ++ bs "}") /\
  emitted (scalar (VRawMap [VString (bs "k1"); VInt 5; VString (bs "k2")]) b) =
    emitted b ++ delim b
      ++ bs "{" ++ dq ++ spec_escape (S (VString (bs "k1"))) ++ dq ++ bs ":5, "
      ++ dq ++ spec_escape (S (VString (bs "k2"))) ++ dq ++ bs ":null}".
Proof.
  assert (Heq : forall v, scalar (VRawMap v) b =
    set_delim comma
      (close (bs "}") (rawmap_pairs v (open (bs "{") (scalar_head b))))).
  { intros v0. rewrite scalar_VRawMap.
    rewrite (proj1 (rawmap_loop_pairs v0)). reflexivity. }
  split; [apply Heq|]. split.
  - intros kvs k members before. rewrite Heq, emitted_set_delim, close_emitted.
    unfold members. rewrite rawmap_pairs_odd, pair_nil_emitted.
    fold members. fold before. rewrite <- !app_assoc. reflexivity.
  - rewrite Heq, emitted_set_delim, close_emitted.
    change (rawmap_pairs [?k1; ?x; ?k2] ?b0)
      with (pair (S k2) VNil (pair (S k1) x b0)).
    rewrite pair_nil_emitted.
    destruct (pair_emitted_head (S (VString (bs "k1"))) (VInt 5)
                (open (bs "{") (scalar_head b))) as (Hp & He & Hd).
    rewrite Hp, scalar_VInt_delim, scalar_VInt_emitted, He, Hd.
    rewrite open_emitted, open_delim, scalar_head_emitted, scalar_head_delim.
    rewrite <- !app_assoc. reflexivity.
Qed.

(** ** Room for numbers *)

Lemma lock_cap_ge n b : n <= scratch_cap -> n <= cap b -> n <= cap (lock b).
Proof. intros. rewrite lock_cap. destruct (buf b); assumption. Qed.

Lemma write1_cap_ge n s b :
  n <= scratch_cap -> n <= cap b -> n <= cap (write1 s b).
Proof.
  intros Hn Hb. unfold write1.
  destruct (cap b <? _); [destruct (cap (lock b) <? _)|destruct (cap b <? _)];
    simpl; auto using lock_cap_ge.
Qed.

Lemma digits_loop_length fuel : forall n acc,
  (length (digits_loop fuel n acc) <= fuel + length acc)%nat.
Proof.
  induction fuel as [|fuel IH]; intros n acc; simpl; [lia|].
  destruct (n <? 10); simpl; [lia|].
  specialize (IH (n / 10) (byte_of_Z (48 + n mod 10) :: acc)). simpl in IH. lia.
Qed.

Lemma formatUint_len x : len (formatUint x) <= 20.
Proof.
  unfold formatUint, len. pose proof (digits_loop_length 20 x []) as H.
  change (length (@nil byte)) with 0%nat in H. lia.
Qed.

Lemma formatInt_len x : len (formatInt x) <= 21.
Proof.
  unfold formatInt. destruct (x <? 0).
  - rewrite len_app. pose proof (formatUint_len (- x)).
    change (len (bs "-")) with 1. lia.
  - pose proof (formatUint_len x). lia.
Qed.

Lemma goappend_fits s b :
  len (buf b) + len s <= cap b -> goappend s b = set_buf (buf b ++ s) b.
Proof.
  intros H. unfold goappend. destruct (_ <=? _) eqn:E; [reflexivity|lia].
Qed.

Lemma scalar_numeric v txt b :
  numeric_text formatFloat v = Some txt ->
  scalar v b = set_delim comma (goappend txt (scalar_head b)).
Proof. destruct v; simpl; intros [= <-]; reflexivity. Qed.

(** C7.  Before it encodes a value, [scalar] leaves at least 64 bytes
    free in the slice: when the pending delimiter and 64 bytes more do
    not fit, it takes the flush-and-lock path, otherwise it only appends
    the delimiter.  A number whose text takes at most 64 bytes, as that
    of every integer does, is then appended in place, within the
    capacity and without a new allocation. *)
Theorem scalar_reserves_headroom (b : buffer) :
  64 <= cap b ->
  let h := scalar_head b in
  len (buf h) + 64 <= cap h /\
  emitted h = emitted b ++ delim b /\
  flows b h /\
  (cap b < len (buf b) + len (delim b) + 64 -> locked h = true) /\
  (len (buf b) + len (delim b) + 64 <= cap b ->
     h = set_delim [] (set_buf (buf b ++ delim b) b)) /\
  (forall v txt,
     numeric_text formatFloat v = Some txt -> len txt <= 64 ->
     scalar v b = set_delim comma (set_buf (buf h ++ txt) h) /\
     len (buf (scalar v b)) <= cap (scalar v b) /\
     cap (scalar v b) = cap h) /\
  (forall x, len (formatInt x) <= 64 /\ len (formatUint x) <= 64).
Proof.
  intros Hcap h.
  assert (Hroom : len (buf h) + 64 <= cap h).
  { unfold h, scalar_head. cbv zeta.
    change (write [delim b] b) with (write1 (delim b) b).
    pose proof (write1_cap_ge 64 (delim b) b ltac:(unfold scratch_cap; lia) Hcap)
      as H1.
    destruct (_ <? _) eqn:E.
    - rewrite lock_buf, len_nil.
      apply lock_cap_ge; [unfold scratch_cap; lia | exact H1].
    - simpl in E |- *. lia. }
  split; [exact Hroom|].
  split; [apply scalar_head_emitted|].
  split; [apply scalar_head_flows', flows_refl|].
  split; [|split; [|split]].
  - intros Hlt. unfold h, scalar_head. cbv zeta.
    change (write [delim b] b) with (write1 (delim b) b).
    destruct (_ <? _) eqn:E; [apply lock_locked|].
    revert E. unfold write1.
    destruct (cap b <? len (buf b) + len (delim b)) eqn:E1.
    + intros _. destruct (cap (lock b) <? _); simpl; apply lock_locked.
    + pose proof (len_nonneg (buf b)).
      destruct (cap b <? len (delim b)) eqn:E2; simpl; rewrite ?len_app;
        intros; lia.
  - intros Hle. unfold h, scalar_head. cbv zeta.
    change (write [delim b] b) with (write1 (delim b) b).
    pose proof (len_nonneg (buf b)). pose proof (len_nonneg (delim b)).
    unfold write1.
    destruct (cap b <? len (buf b) + len (delim b)) eqn:E1; [lia|].
    destruct (cap b <? len (delim b)) eqn:E2; [lia|].
    simpl. rewrite len_app.
    destruct (cap b <? len (buf b) + len (delim b) + 64) eqn:E3;
      [lia|reflexivity].
  - intros v txt Hv Hlen.
    rewrite (scalar_numeric v txt b Hv). fold h.
    rewrite goappend_fits by lia. simpl. rewrite len_app.
    repeat split. lia.
  - intros x. pose proof (formatInt_len x). pose proof (formatUint_len x). lia.
Qed.

(** ** Calendar fields *)


Lemma upto_In n x : 0 <= x < Z.of_nat n -> In x (upto n).
Proof.
  intros H. unfold upto. replace x with (Z.of_nat (Z.to_nat x)) by lia.
  apply in_map, in_seq. lia.
Qed.



Lemma digit_facts k :
  0 <= k <= 9 ->
  is_digit (byte_of_Z (48 + k)) = true /\
  Z.of_N (Byte.to_N (byte_of_Z (48 + k))) - 48 = k /\
  (1 <= k -> byte_of_Z (48 + k) <> x30).
Proof.
  intros H.
  assert (A : forallb (fun k =>
                is_digit (byte_of_Z (48 + k)) &&
                (Z.of_N (Byte.to_N (byte_of_Z (48 + k))) - 48 =? k) &&
                ((k =? 0) || negb (Byte.eqb (byte_of_Z (48 + k)) x30)))
              (upto 10) = true) by (vm_compute; reflexivity).
  rewrite forallb_forall in A. specialize (A k (upto_In 10 k ltac:(lia))).
  rewrite !andb_true_iff, orb_true_iff, !Z.eqb_eq, negb_true_iff in A.
  destruct A as [[A1 A2] A3]. repeat split; auto.
  intros Hk E. destruct A3 as [A3|A3]; [lia|].
  rewrite E in A3. discriminate.
Qed.

Lemma dec_value_snoc ds d :
  dec_value (ds ++ [d]) = 10 * dec_value ds + (Z.of_N (Byte.to_N d) - 48).
Proof. unfold dec_value. rewrite fold_left_app. reflexivity. Qed.

Lemma digits_loop_natural fuel : forall n acc,
  0 <= n < 10 ^ Z.of_nat (Datatypes.S fuel) ->
  exists ds, digits_loop (Datatypes.S fuel) n acc = ds ++ acc /\ natural ds n.
Proof.
  induction fuel as [|fuel IH]; intros n acc Hn;
    cbn [digits_loop]; destruct (n <? 10) eqn:E.
  1, 3: exists [byte_of_Z (48 + n mod 10)]; (split; [reflexivity|]);
    rewrite Z.mod_small by lia;
    destruct (digit_facts n ltac:(lia)) as (D1 & D2 & D3);
    unfold natural, dec_value; cbn [forallb hd fold_left]; rewrite D1;
    (split; [discriminate|split; [reflexivity|split; [lia|exact D3]]]).
  - change (Z.of_nat 1) with 1 in Hn. lia.
  - assert (Hq : 0 <= n / 10 < 10 ^ Z.of_nat (Datatypes.S fuel)).
    { rewrite (Nat2Z.inj_succ (Datatypes.S fuel)), Z.pow_succ_r in Hn by lia.
      split; [apply Z.div_pos; lia|apply Z.div_lt_upper_bound; lia]. }
    destruct (IH (n / 10) (byte_of_Z (48 + n mod 10) :: acc) Hq)
      as (ds & Hds & Hne & Hdig & Hval & Hhd).
    exists (ds ++ [byte_of_Z (48 + n mod 10)]). split.
    + cbn [digits_loop] in Hds. rewrite Hds, <- app_assoc. reflexivity.
    + destruct (digit_facts (n mod 10)
                  ltac:(pose proof (Z.mod_pos_bound n 10); lia))
        as (D1 & D2 & _).
      unfold natural. rewrite forallb_app, Hdig, dec_value_snoc, Hval, D2.
      cbn [forallb]. rewrite D1.
      split; [|split; [reflexivity|split]].
      * destruct ds; discriminate.
      * pose proof (Z.div_mod n 10). lia.
      * intros _. destruct ds as [|d ds]; [congruence|]. cbn [app hd].
        apply Hhd. assert (10 <= n) by lia.
        apply Z.div_le_lower_bound; lia.
Qed.

Lemma formatInt_natural y : 0 <= y < 10 ^ 18 -> natural (formatInt y) y.
Proof.
  intros H. unfold formatInt. destruct (y <? 0) eqn:E; [lia|].
  unfold formatUint.
  destruct (digits_loop_natural 19 y []) as (ds & Hds & Hn).
  - change (Z.of_nat 20) with 20. lia.
  - rewrite Hds, app_nil_r. exact Hn.
Qed.

(** ** Timestamps *)

Lemma write_fits s x cp tr dl lk :
  len x + len s <= cp ->
  write [s] (mkBuffer x cp tr dl lk) = mkBuffer (x ++ s) cp tr dl lk.
Proof.
  intros H. pose proof (len_nonneg x).
  assert (E1 : (cp <? len x + len s) = false) by lia.
  assert (E2 : (cp <? len s) = false) by lia.
  unfold write, fold_left, write1. cbn [cap buf]. rewrite E1.
  cbn [cap buf]. rewrite E2. reflexivity.
Qed.

Lemma goappend_fits_mk s x cp tr dl lk :
  len x + len s <= cp ->
  goappend s (mkBuffer x cp tr dl lk) = mkBuffer (x ++ s) cp tr dl lk.
Proof. intros H. rewrite goappend_fits by exact H. reflexivity. Qed.

Lemma len_int2_text val : len (int2_text val) = 2.
Proof. reflexivity. Qed.

Lemma int2_fits val x cp tr dl lk :
  len x + 2 <= cp ->
  int2 val (mkBuffer x cp tr dl lk) =
  Some (mkBuffer (x ++ int2_text val) cp tr dl lk).
Proof.
  intros H. unfold int2. cbn [cap buf].
  destruct (cp <? 2 + len x) eqn:E; [lia|]. reflexivity.
Qed.

Lemma len_repeat (c : byte) n : len (repeat c n) = Z.of_nat n.
Proof. unfold len. rewrite repeat_length. reflexivity. Qed.

Lemma int_fits val digits x cp tr dl lk :
  len x + Z.max digits (len (formatInt val)) <= cp ->
  int val digits (mkBuffer x cp tr dl lk) =
  Some (mkBuffer (x ++ int_text val digits) cp tr dl lk).
Proof.
  intros H. unfold int. cbn [buf].
  rewrite goappend_fits_mk by lia. cbn [buf cap]. rewrite len_app.
  replace (len x + len (formatInt val) - len x) with (len (formatInt val)) by lia.
  unfold int_text.
  destruct (len (formatInt val) <? digits) eqn:E1.
  - destruct (cp <? len x + digits) eqn:E2; [lia|]. reflexivity.
  - replace (Z.to_nat (digits - len (formatInt val))) with 0%nat by lia.
    reflexivity.
Qed.



Lemma int2_emitted val b b' :
  int2 val b = Some b' ->
  emitted b' = emitted b ++ int2_text val /\ delim b' = delim b.
Proof.
  unfold int2. destruct (_ <? _); [discriminate|]. intros [= <-].
  split; [|reflexivity]. unfold emitted. cbn [trace buf set_buf].
  apply app_assoc.
Qed.

Lemma goappend_buf s b : buf (goappend s b) = buf b ++ s.
Proof. unfold goappend. destruct (_ <=? _); reflexivity. Qed.

Lemma goappend_trace s b : trace (goappend s b) = trace b.
Proof. unfold goappend. destruct (_ <=? _); reflexivity. Qed.

Lemma int_emitted val digits b b' :
  int val digits b = Some b' ->
  emitted b' = emitted b ++ int_text val digits.
Proof.
  unfold int. rewrite goappend_buf, len_app.
  replace (len (buf b) + len (formatInt val) - len (buf b))
    with (len (formatInt val)) by lia.
  unfold int_text. destruct (_ <? digits) eqn:E1.
  - destruct (cap (goappend (formatInt val) b) <? len (buf b) + digits);
      [discriminate|]. intros [= <-].
    unfold emitted. cbn [trace buf set_buf]. rewrite goappend_trace.
    apply app_assoc.
  - intros [= <-]. rewrite goappend_emitted.
    replace (Z.to_nat (digits - len (formatInt val))) with 0%nat by lia.
    reflexivity.
Qed.

(** Whenever [timestamp] returns, the line has grown by the text of the
    instant, whatever was flushed on the way. *)
Lemma timestamp_emitted now b b' :
  timestamp now b = Some b' ->
  emitted b' = emitted b ++ timestamp_text now /\ delim b' = comma.
Proof.
  unfold timestamp. intros H.
  repeat match type of H with
         | match ?x with Some _ => _ | None => _ end = _ =>
             let E := fresh "E" in
             destruct x eqn:E; [|discriminate]
         end.
  injection H as <-. split; [|reflexivity].
  apply int2_emitted in E, E0, E1, E2, E3. apply int_emitted in E4.
  destruct E as [E _], E0 as [E0 _], E1 as [E1 _], E2 as [E2 _], E3 as [E3 _].
  repeat first
    [ rewrite emitted_set_delim | rewrite write1_emitted | rewrite write_emitted
    | rewrite goappend_emitted
    | rewrite E4 | rewrite E3 | rewrite E2 | rewrite E1 | rewrite E0
    | rewrite E ].
  assert (G : emitted (if cap b <? len (buf b) + 22 then lock b else b)
              = emitted b) by (destruct (_ <? _); auto using lock_emitted).
  rewrite G. unfold timestamp_text. cbn [concat].
  rewrite ?app_nil_r, <- !app_assoc. reflexivity.
Qed.



End Facts.

(** ** Examples *)

Lemma early_writes_hold_the_lock_witness :
  line_start newBuffer /\
  composes growcap_twice formatFloat_zero S_text newBuffer long_line /\
  locked long_line = held (trace long_line) /\
  held (trace (unlock long_line)) = false.
Proof.
  assert (H1 : line_start newBuffer) by (split; reflexivity).
  assert (H2 : composes growcap_twice formatFloat_zero S_text
                 newBuffer long_line).
  { eapply composes_snoc; [apply composes_nil | apply step_write]. }
  split; [exact H1|]. split; [exact H2|].
  destruct (early_writes_hold_the_lock growcap_twice formatFloat_zero S_text
              newBuffer long_line H1 H2) as (_ & _ & A & _ & _ & B).
  split; [exact A | exact B].
Defined.

Lemma unflushed_line_single_write_witness :
  line_start newBuffer /\
  composes growcap_twice formatFloat_zero S_text newBuffer short_line /\
  locked short_line = false /\
  trace (unlock short_line) = [EvWrite (buf short_line)].
Proof.
  assert (H1 : line_start newBuffer) by (split; reflexivity).
  assert (H2 : composes growcap_twice formatFloat_zero S_text
                 newBuffer short_line).
  { eapply composes_snoc; [apply composes_nil | apply step_quote]. }
  assert (H3 : locked short_line = false) by reflexivity.
  split; [exact H1|]. split; [exact H2|]. split; [exact H3|].
  destruct (unflushed_line_single_write growcap_twice formatFloat_zero S_text
              newBuffer short_line H1 eq_refl H2 H3) as (_ & _ & A & _).
  exact A.
Defined.

Lemma scalar_reserves_headroom_witness :
  64 <= cap newBuffer /\
  len (buf (scalar_head newBuffer)) + 64 <= cap (scalar_head newBuffer).
Proof.
  assert (H : 64 <= cap newBuffer) by (vm_compute; discriminate).
  split; [exact H|].
  exact (proj1 (scalar_reserves_headroom growcap_twice formatFloat_zero S_text
                  newBuffer H)).
Defined.


(** C4 as it is worded: with a bare comma between the members the bytes
    are not those [scalar] writes. *)
Lemma amap_example_bare_comma_refuted :
  ~ (forall growcap formatFloat S b,
       delim b = [] ->
       emitted (scalar growcap formatFloat S amap_ab b) =
         emitted b
           ++ bs "{" ++ dq ++ bs "a" ++ dq ++ bs ":1,"
           ++ dq ++ bs "b" ++ dq ++ bs ":" ++ dq ++ bs "x" ++ bsl ++ dq
           ++ bs "y" ++ dq ++ bs "}").
Proof.
  intros H.
  specialize (H growcap_twice formatFloat_zero S_text newBuffer eq_refl).
  vm_compute in H. discriminate H.
Qed.

(** C5 as it is worded: a line of 16381 bytes fits the scratch region,
    yet the room [scalar] asks for sends its first 16380 bytes early,
    under the mutex, and the release writes the rest; and a line with no
    byte at all, which no flush ever touched, makes no write call. *)
Lemma fitting_line_flushed_early :
  ~ (forall growcap formatFloat S b,
       composes growcap formatFloat S newBuffer b ->
       len (emitted b) <= scratch_cap ->
       exists s, trace (unlock b) = [EvWrite s]) /\
  ~ (forall growcap formatFloat S b,
       composes growcap formatFloat S newBuffer b ->
       len (emitted b) <= scratch_cap ->
       locked b = false ->
       exists s, trace (unlock b) = [EvWrite s]).
Proof.
  split; intros H.
  - destruct (H growcap_twice formatFloat_zero S_text near_full_line)
      as [s Hs].
    + eapply composes_snoc; [|apply step_scalar].
      eapply composes_snoc; [apply composes_nil | apply step_write].
    + vm_compute. discriminate.
    + vm_compute in Hs. discriminate Hs.
  - destruct (H growcap_twice formatFloat_zero S_text newBuffer)
      as [s Hs].
    + apply composes_nil.
    + vm_compute. discriminate.
    + reflexivity.
    + discriminate Hs.
Qed.

(** What that line does instead. *)
Lemma near_full_line_trace :
  len (emitted near_full_line) = 16381 /\
  trace (unlock near_full_line) =
    [EvLock; EvWrite (repeat x78 (Z.to_nat 16380)); EvWrite (bs "1"); EvUnlock].
Proof. split; vm_compute; reflexivity. Qed.

(** An empty line makes no write call at all. *)
Lemma empty_line_no_write : trace (unlock newBuffer) = [].
Proof. reflexivity. Qed.

(** With exactly the 22 bytes [timestamp] checks for, a one-digit
    millisecond has [int] slice past the capacity: the call panics. *)
Lemma timestamp_short_of_room :
  timestamp growcap_twice instant_5ms nearly_full = None.
Proof. vm_compute. reflexivity. Qed.

(** * More of the engine *)

Section More.

Variable growcap : Z -> Z -> Z.
Variable formatFloat : spec_float -> Z -> gostring.
Variable S : value -> gostring.

Local Abbreviation goappend := (goappend growcap).
Local Abbreviation writeBytes := (writeBytes growcap).
Local Abbreviation escapeBytes := (escapeBytes growcap).
Local Abbreviation escapeBytes_loop := (escapeBytes_loop growcap).
Local Abbreviation quoteBytes := (quoteBytes growcap).
Local Abbreviation int := (int growcap).
Local Abbreviation timestamp := (timestamp growcap).
Local Abbreviation scalar := (scalar growcap formatFloat S).
Local Abbreviation pair := (pair growcap formatFloat S).
Local Abbreviation pairs := (pairs growcap formatFloat S).
Local Abbreviation step := (step growcap formatFloat S).
Local Abbreviation composes := (composes growcap formatFloat S).
Local Abbreviation runs := (runs growcap formatFloat S).

(** ** Byte slices go the way of strings *)

(** The [append] of [writeBytes] never has to move the slice. *)
Lemma writeBytes_write1 s b : writeBytes s b = write1 s b.
Proof.
  unfold writeBytes, write1.
  pose proof (write_reslice_in_range s b) as H. cbv zeta in H.
  destruct (cap b <? len (buf b) + len s);
    (destruct (cap _ <? len s); [reflexivity|]);
    apply goappend_fits, H; reflexivity.
Qed.

Lemma escapeBytes_loop_escape_loop rest : forall run b,
  escapeBytes_loop run rest b = escape_loop run rest b.
Proof.
  induction rest as [|c rest IH]; intros run b; simpl.
  - apply writeBytes_write1.
  - destruct (noEsc c); rewrite IH; [reflexivity|].
    rewrite writeBytes_write1. reflexivity.
Qed.

Lemma quote_quoteBytes s b : quote s b = set_delim comma (quoteBytes s b).
Proof.
  unfold quote, quoteBytes, escapeBytes, escape.
  rewrite escapeBytes_loop_escape_loop. reflexivity.
Qed.

(** X1.  [writeBytes] does what [write] does of one string, state for
    state: its [append] always finds room, so the slice never leaves the
    scratch array through it.  Hence [escapeBytes] is [escape], and
    [quoteBytes] is [quote] but for the pending delimiter, which it
    leaves alone. *)
Theorem bytes_as_strings (s : gostring) (b : buffer) :
  writeBytes s b = write [s] b /\
  escapeBytes s b = escape s b /\
  quote s b = set_delim comma (quoteBytes s b) /\
  delim (quoteBytes s b) = delim b /\
  emitted (quoteBytes s b) = emitted (quote s b).
Proof.
  split; [apply writeBytes_write1|].
  split; [apply escapeBytes_loop_escape_loop|].
  split; [apply quote_quoteBytes|].
  rewrite quote_quoteBytes. split; [|reflexivity].
  unfold quoteBytes, escapeBytes. rewrite escapeBytes_loop_escape_loop.
  rewrite write_delim, escape_loop_delim, write_delim. reflexivity.
Qed.

(** X2.  [scalar] encodes a byte slice and the message of an error
    exactly as it encodes the same text given as a string. *)
Theorem scalar_bytes_error_as_string (s : gostring) (b : buffer) :
  scalar (VBytes s) b = scalar (VString s) b /\
  scalar (VError s) b = scalar (VString s) b.
Proof.
  split; [|reflexivity]. cbn [scalar]. rewrite quote_quoteBytes. reflexivity.
Qed.

(** ** Nothing is lost *)

Lemma unlock_written b : written (trace (unlock b)) = emitted b.
Proof.
  rewrite unlock_trace, !written_app. unfold emitted. f_equal.
  destruct (buf b), (locked b); simpl; rewrite ?app_nil_r; reflexivity.
Qed.

(** X3.  Whatever the fragments and however full the buffer, [write] and
    [writeBytes] add the fragments to the line in order, byte for byte,
    and once the line is released the stream has received all of it and
    the buffer holds nothing. *)
Theorem fragments_reach_the_stream (strs : list gostring) (s : gostring)
    (b : buffer) :
  emitted (write strs b) = emitted b ++ concat strs /\
  emitted (writeBytes s b) = emitted b ++ s /\
  written (trace (unlock (write strs b))) = emitted b ++ concat strs /\
  written (trace (unlock (writeBytes s b))) = emitted b ++ s /\
  buf (unlock (write strs b)) = [] /\
  buf (unlock (writeBytes s b)) = [].
Proof.
  rewrite !unlock_written, !unlock_buf, writeBytes_write1, write1_emitted,
    write_emitted.
  repeat split.
Qed.

(** X4.  A fragment that fits in what is left of the slice is only
    copied: no call reaches the mutex or the stream. *)
Theorem fitting_fragment_is_buffered (s : gostring) (b : buffer) :
  len (buf b) + len s <= cap b ->
  write [s] b = set_buf (buf b ++ s) b /\
  writeBytes s b = set_buf (buf b ++ s) b /\
  trace (write [s] b) = trace b /\
  locked (write [s] b) = locked b.
Proof.
  intros H. pose proof (len_nonneg (buf b)).
  assert (E : write [s] b = set_buf (buf b ++ s) b).
  { change (write [s] b) with (write1 s b). unfold write1.
    destruct (cap b <? len (buf b) + len s) eqn:E1; [lia|].
    destruct (cap b <? len s) eqn:E2; [lia|]. reflexivity. }
  rewrite writeBytes_write1. change (write1 s b) with (write [s] b).
  rewrite E. repeat split.
Qed.

(** X5.  A fragment longer than the scratch array is never copied: the
    buffer takes the mutex if it does not hold it, sends what it holds,
    then sends the fragment with a call of its own, and is left empty
    and locked. *)
Theorem oversized_fragment_is_written (s : gostring) (b : buffer) :
  cap b < len s -> scratch_cap < len s ->
  write [s] b = emit (EvWrite s) (lock b) /\
  trace (write [s] b) =
    trace b ++ (if locked b then [] else [EvLock])
            ++ map EvWrite (match buf b with [] => [] | _ => [buf b] end)
            ++ [EvWrite s] /\
  buf (write [s] b) = [] /\
  locked (write [s] b) = true.
Proof.
  intros H1 H2. pose proof (len_nonneg (buf b)).
  assert (E : write [s] b = emit (EvWrite s) (lock b)).
  { change (write [s] b) with (write1 s b). unfold write1.
    destruct (cap b <? len (buf b) + len s) eqn:E1; [|lia].
    destruct (cap (lock b) <? len s) eqn:E2; [reflexivity|].
    rewrite lock_cap in E2. destruct (buf b); lia. }
  rewrite E. split; [reflexivity|]. cbn [emit trace buf locked].
  rewrite lock_trace, lock_buf, lock_locked, <- !app_assoc.
  repeat split.
Qed.

(** X6.  Taking the mutex twice, or releasing twice, is taking it or
    releasing once: [lock] does not lock a mutex the buffer holds, and
    [unlock] does not unlock one it does not hold. *)
Theorem lock_unlock_idempotent (b : buffer) :
  lock (lock b) = lock b /\
  unlock (unlock b) = unlock b /\
  trace (unlock (lock b)) =
    trace b ++ (if locked b then [] else [EvLock])
            ++ map EvWrite (match buf b with [] => [] | _ => [buf b] end)
            ++ [EvUnlock].
Proof.
  split; [|split].
  - destruct b as [x cp tr dl lk]. destruct lk, x; reflexivity.
  - destruct b as [x cp tr dl lk]. destruct lk, x; reflexivity.
  - rewrite unlock_trace, lock_trace, lock_buf, lock_locked, <- !app_assoc.
    reflexivity.
Qed.

(** ** Quoted strings *)

Lemma spec_escape_byte_printable c :
  forallb printable (spec_escape_byte c) = true.
Proof. destruct c; reflexivity. Qed.

Lemma spec_escape_printable s : forallb printable (spec_escape s) = true.
Proof.
  unfold spec_escape. induction s as [|c s IH]; [reflexivity|].
  simpl flat_map. rewrite forallb_app, spec_escape_byte_printable. exact IH.
Qed.

Lemma quoteBytes_emitted s b :
  emitted (quoteBytes s b) = emitted b ++ delim b ++ quoted s.
Proof.
  rewrite <- (emitted_set_delim comma), <- quote_quoteBytes, quote_emitted.
  reflexivity.
Qed.

Lemma quoteBytes_delim s b : delim (quoteBytes s b) = delim b.
Proof.
  unfold quoteBytes, escapeBytes. rewrite escapeBytes_loop_escape_loop.
  rewrite write_delim, escape_loop_delim, write_delim. reflexivity.
Qed.

(** X7.  For a text in well-formed UTF-8, [quote] and [quoteBytes] add
    the pending delimiter and then a JSON string: between two quotes, a
    text with no control byte, and so no line break, that a JSON parser
    reads back as the text given. *)
Theorem quote_writes_json_string (s : gostring) (b : buffer) :
  valid_utf8 s = true ->
  emitted (quote s b) = emitted b ++ delim b ++ dq ++ spec_escape s ++ dq /\
  emitted (quoteBytes s b) = emitted b ++ delim b ++ dq ++ spec_escape s ++ dq /\
  forallb printable (spec_escape s) = true /\
  ~ In x0a (spec_escape s) /\
  json_unescape (spec_escape s) = Some s.
Proof.
  intros Hv.
  split; [apply quote_emitted|]. split; [apply quoteBytes_emitted|].
  split; [apply spec_escape_printable|].
  split; [|apply json_unescape_spec_escape, Hv].
  intros H. pose proof (spec_escape_printable s) as P.
  rewrite forallb_forall in P. specialize (P _ H). discriminate P.
Qed.

(** ** Lists of strings *)

Lemma scalar_strings_loop l : forall b,
  l <> [] ->
  emitted (fold_left (fun b s => scalar_string s b) l b) =
    emitted b ++ delim b ++ join comma (map quoted l) /\
  delim (fold_left (fun b s => scalar_string s b) l b) = comma.
Proof.
  induction l as [|x l IH]; intros b Hne; [congruence|].
  destruct l as [|y l].
  - cbn [fold_left map join]. split; [apply scalar_string_emitted|reflexivity].
  - change (fold_left (fun b s => scalar_string s b) (x :: y :: l) b)
      with (fold_left (fun b s => scalar_string s b) (y :: l)
              (scalar_string x b)).
    destruct (IH (scalar_string x b) ltac:(discriminate)) as [E D].
    split; [|exact D]. rewrite E, scalar_string_emitted.
    change (delim (scalar_string x b)) with comma.
    change (join comma (map quoted (x :: y :: l)))
      with (quoted x ++ comma ++ join comma (map quoted (y :: l))).
    unfold quoted. rewrite <- !app_assoc. reflexivity.
Qed.

(** X8.  A slice of strings comes out as a JSON array: the pending
    delimiter, an opening bracket, the strings quoted and escaped with
    [comma] between them, a closing bracket; the empty slice gives the
    two brackets. *)
Theorem string_slice_is_array (l : list gostring) (b : buffer) :
  emitted (scalar (VStrings l) b) =
    emitted b ++ delim b ++ bs "[" ++ join comma (map quoted l) ++ bs "]" /\
  delim (scalar (VStrings l) b) = comma.
Proof.
  split; [|reflexivity]. cbn [scalar].
  rewrite emitted_set_delim, close_emitted.
  destruct l as [|x l].
  - cbn [fold_left map join].
    rewrite open_emitted, open_delim || rewrite open_emitted.
    rewrite scalar_head_emitted, scalar_head_delim, <- !app_assoc. reflexivity.
  - destruct (scalar_strings_loop (x :: l) (open (bs "[") (scalar_head b))
                ltac:(discriminate)) as [E _].
    rewrite E, open_delim, open_emitted, scalar_head_emitted, scalar_head_delim.
    rewrite <- !app_assoc. reflexivity.
Qed.

(** ** Generic maps *)

Lemma insert_key_map {A B} (h : A -> B) e l :
  insert_key (fst e, h (snd e)) (map (fun kv => (fst kv, h (snd kv))) l) =
  map (fun kv => (fst kv, h (snd kv))) (insert_key e l).
Proof.
  induction l as [|e' l IH]; [reflexivity|]. cbn [map insert_key fst].
  destruct (str_ltb (fst e') (fst e)); cbn [map]; [rewrite IH|]; reflexivity.
Qed.

Lemma sort_keys_map {A B} (h : A -> B) l :
  sort_keys (map (fun kv => (fst kv, h (snd kv))) l) =
  map (fun kv => (fst kv, h (snd kv))) (sort_keys l).
Proof.
  induction l as [|e l IH]; [reflexivity|].
  cbn [map sort_keys fold_right]. fold (sort_keys l).
  fold (sort_keys (map (fun kv => (fst kv, h (snd kv))) l)).
  rewrite IH. apply insert_key_map.
Qed.

Lemma insert_key_not_nil {A} (e : gostring * A) l : insert_key e l <> [].
Proof. destruct l; simpl; [|destruct (str_ltb _ _)]; discriminate. Qed.

Lemma fold_keyed l : forall b,
  fold_left (fun b kf => snd kf (colon (quote (fst kf) b)))
    (map (fun kv => (fst kv, scalar (snd kv))) l) b =
  fold_left (fun b kv => pair (fst kv) (snd kv) b) l b.
Proof.
  induction l as [|e l IH]; intros b; [reflexivity|].
  cbn [map fold_left fst snd]. rewrite IH. reflexivity.
Qed.

(** The order of Go strings is a strict total order. *)
Lemma to_N_inj (a c : byte) : Byte.to_N a = Byte.to_N c -> a = c.
Proof.
  intros H. pose proof (Byte.of_to_N a) as Ha. rewrite H, Byte.of_to_N in Ha.
  congruence.
Qed.

Lemma byte_eqb_eq (a c : byte) : Byte.eqb a c = true <-> a = c.
Proof. split; [apply Byte.byte_dec_bl | apply Byte.byte_dec_lb]. Qed.

Lemma str_ltb_asym x : forall y, str_ltb x y = true -> str_ltb y x = false.
Proof.
  induction x as [|a x IH]; intros [|c y]; simpl; try congruence.
  rewrite orb_true_iff, andb_true_iff, orb_false_iff, andb_false_iff.
  rewrite !N.ltb_lt, N.ltb_ge, !byte_eqb_eq.
  intros [H|[-> H]].
  - split; [lia|]. left. apply not_true_is_false. rewrite byte_eqb_eq.
    intros ->. lia.
  - split; [lia|]. right. apply IH, H.
Qed.

Lemma str_ltb_total x : forall y,
  str_ltb x y = false -> str_ltb y x = false -> x = y.
Proof.
  induction x as [|a x IH]; intros [|c y]; simpl; try congruence.
  rewrite !orb_false_iff, !andb_false_iff, !N.ltb_ge.
  intros [H1 H2] [H3 H4].
  assert (a = c) by (apply to_N_inj; lia). subst c.
  rewrite (Byte.byte_dec_lb eq_refl) in H2, H4.
  destruct H2 as [H2|H2]; [discriminate|].
  destruct H4 as [H4|H4]; [discriminate|].
  f_equal. apply IH; assumption.
Qed.

Lemma str_ltb_trans x : forall y z,
  str_ltb x y = true -> str_ltb y z = true -> str_ltb x z = true.
Proof.
  induction x as [|a x IH]; intros [|c y] [|e z]; simpl; try congruence.
  rewrite !orb_true_iff, !andb_true_iff, !N.ltb_lt, !byte_eqb_eq.
  intros [H1|[-> H1]] [H2|[-> H2]].
  - left. lia.
  - left. exact H1.
  - left. exact H2.
  - right. split; [reflexivity|]. eapply IH; eassumption.
Qed.

Lemma str_ltb_cases x y :
  x <> y -> (str_ltb x y = true /\ str_ltb y x = false) \/
            (str_ltb x y = false /\ str_ltb y x = true).
Proof.
  intros Hne. destruct (str_ltb x y) eqn:E1.
  - left. split; [reflexivity|]. apply str_ltb_asym, E1.
  - right. split; [reflexivity|]. destruct (str_ltb y x) eqn:E2; [reflexivity|].
    exfalso. apply Hne. apply str_ltb_total; assumption.
Qed.

(** Entries with different keys may be inserted in either order. *)
Lemma insert_key_swap {A} (x y : gostring * A) :
  fst x <> fst y ->
  forall l, insert_key x (insert_key y l) = insert_key y (insert_key x l).
Proof.
  intros Hne. destruct (str_ltb_cases _ _ Hne) as [[Hxy Hyx]|[Hxy Hyx]];
    induction l as [|a l IH]; cbn [insert_key].
  - rewrite Hxy, Hyx. reflexivity.
  - destruct (str_ltb (fst a) (fst y)) eqn:Hay;
      destruct (str_ltb (fst a) (fst x)) eqn:Hax;
      cbn [insert_key]; rewrite ?Hay, ?Hax, ?Hxy, ?Hyx, ?IH; try reflexivity.
    (* a < x < y with a not below y cannot be *)
    rewrite (str_ltb_trans _ _ _ Hax Hxy) in Hay. discriminate.
  - rewrite Hxy, Hyx. reflexivity.
  - destruct (str_ltb (fst a) (fst y)) eqn:Hay;
      destruct (str_ltb (fst a) (fst x)) eqn:Hax;
      cbn [insert_key]; rewrite ?Hay, ?Hax, ?Hxy, ?Hyx, ?IH; try reflexivity.
    rewrite (str_ltb_trans _ _ _ Hay Hyx) in Hax. discriminate.
Qed.

Lemma sort_keys_perm {A} (l1 l2 : list (gostring * A)) :
  Permutation l1 l2 -> NoDup (map fst l1) -> sort_keys l1 = sort_keys l2.
Proof.
  induction 1 as [|x l1 l2 Hp IH|x y l|l1 l2 l3 Hp1 IH1 Hp2 IH2];
    intros Hnd.
  - reflexivity.
  - cbn [map] in Hnd. inversion Hnd; subst.
    cbn [sort_keys fold_right]. fold (sort_keys l1). fold (sort_keys l2).
    rewrite IH by assumption. reflexivity.
  - cbn [map] in Hnd. inversion Hnd as [|? ? Hin _]; subst.
    cbn [sort_keys fold_right]. apply insert_key_swap.
    intros E. apply Hin. left. symmetry. exact E.
  - rewrite IH1 by assumption. apply IH2.
    eapply Permutation_NoDup; [|exact Hnd]. apply Permutation_map, Hp1.
Qed.

Lemma insert_key_permutation {A} (e : gostring * A) l :
  Permutation (e :: l) (insert_key e l).
Proof.
  induction l as [|a l IH]; cbn [insert_key]; [reflexivity|].
  destruct (str_ltb (fst a) (fst e)); [|reflexivity].
  eapply perm_trans; [apply perm_swap|]. apply perm_skip, IH.
Qed.

Lemma sort_keys_permutation {A} (l : list (gostring * A)) :
  Permutation l (sort_keys l).
Proof.
  induction l as [|e l IH]; [reflexivity|].
  cbn [sort_keys fold_right]. fold (sort_keys l).
  eapply perm_trans; [apply perm_skip, IH | apply insert_key_permutation].
Qed.

Lemma ascending_cons k ks :
  ascending (k :: ks) =
  match ks with [] => true | k' :: _ => str_ltb k k' end && ascending ks.
Proof. reflexivity. Qed.

Lemma insert_key_ascending {A} (e : gostring * A) l :
  ascending (map fst l) = true -> ~ In (fst e) (map fst l) ->
  ascending (map fst (insert_key e l)) = true.
Proof.
  induction l as [|a l IH]; intros Ha Hn; [reflexivity|].
  cbn [map] in Ha, Hn. rewrite ascending_cons in Ha.
  apply andb_true_iff in Ha. destruct Ha as [Hh Ht].
  cbn [insert_key]. destruct (str_ltb (fst a) (fst e)) eqn:E.
  - cbn [map]. rewrite ascending_cons, (IH Ht), andb_true_r.
    + destruct l as [|a2 l2]; [exact E|]. cbn [insert_key].
      destruct (str_ltb (fst a2) (fst e)); cbn [map]; [exact Hh | exact E].
    + intros H. apply Hn. right. exact H.
  - cbn [map]. rewrite ascending_cons. apply andb_true_iff. split.
    + destruct (str_ltb_cases (fst e) (fst a)) as [[H _]|[_ H]].
      * intros H. apply Hn. left. symmetry. exact H.
      * exact H.
      * congruence.
    + change (ascending (map fst (a :: l)) = true).
      cbn [map]. rewrite ascending_cons, Hh, Ht. reflexivity.
Qed.

Lemma sort_keys_ascending {A} (l : list (gostring * A)) :
  NoDup (map fst l) -> ascending (map fst (sort_keys l)) = true.
Proof.
  induction l as [|e l IH]; intros Hnd; [reflexivity|].
  cbn [map] in Hnd. inversion Hnd as [|? ? Hin Hnd']; subst.
  cbn [sort_keys fold_right]. fold (sort_keys l).
  apply insert_key_ascending; [apply IH, Hnd'|].
  intros H. apply Hin.
  eapply Permutation_in; [|exact H].
  apply Permutation_map, Permutation_sym, sort_keys_permutation.
Qed.

(** X9.  A [map[string]interface{}] with at least one entry is encoded
    as the ordered map of its entries put in strictly ascending order of
    their keys, byte by byte, would be; so the bytes do not depend on the
    order in which the map is iterated.  With no entry it comes out as
    the two braces, where the empty ordered map comes out as nothing. *)
Theorem generic_map_as_sorted_amap (m m' : list (gostring * value))
    (b : buffer) :
  m <> [] -> Permutation m m' -> NoDup (map fst m) ->
  scalar (VMap m) b = scalar (VAMap (Some (sort_keys m))) b /\
  Permutation m (sort_keys m) /\
  ascending (map fst (sort_keys m)) = true /\
  scalar (VMap m) b = scalar (VMap m') b /\
  emitted (scalar (VMap []) b) = emitted b ++ delim b ++ bs "{}".
Proof.
  intros Hne Hp Hnd.
  assert (E : forall l, scalar (VMap l) b =
     set_delim comma (close (bs "}")
       (pairs (Some (sort_keys l)) (open (bs "{") (scalar_head b))))).
  { intros l. rewrite scalar_VMap, sort_keys_map, fold_keyed. reflexivity. }
  split; [|split; [apply sort_keys_permutation|
           split; [apply sort_keys_ascending, Hnd|split]]].
  - rewrite E. destruct (sort_keys m) as [|e l] eqn:Es.
    + destruct m as [|e m]; [congruence|].
      cbn [sort_keys fold_right] in Es. apply insert_key_not_nil in Es.
      contradiction.
    + rewrite scalar_VAMap. reflexivity.
  - rewrite !E, (sort_keys_perm m m' Hp Hnd). reflexivity.
  - rewrite E. cbn [sort_keys fold_right pairs fold_left].
    rewrite emitted_set_delim, close_emitted, open_emitted, open_delim
      || rewrite emitted_set_delim, close_emitted, open_emitted.
    rewrite scalar_head_emitted, scalar_head_delim, <- !app_assoc. reflexivity.
Qed.

(** ** The output depends on the pending delimiter only *)

Lemma appends_id : appends (fun b => b).
Proof. intros d. exists [], d. intros b H. rewrite app_nil_r. auto. Qed.

Lemma appends_after (g : buffer -> buffer) :
  appends g -> forall f, appends f -> appends (fun b => g (f b)).
Proof.
  intros Hg f Hf d. destruct (Hf d) as (out1 & d1 & H1).
  destruct (Hg d1) as (out2 & d2 & H2).
  exists (out1 ++ out2), d2. intros b Hb.
  destruct (H1 b Hb) as [E1 D1]. destruct (H2 (f b) D1) as [E2 D2].
  split; [|exact D2]. rewrite E2, E1, app_assoc. reflexivity.
Qed.

(** An operation that adds a text fixed in advance. *)
Lemma appends_const (g : buffer -> buffer) (out : gostring) :
  (forall b, emitted (g b) = emitted b ++ out /\ delim (g b) = delim b) ->
  appends g.
Proof.
  intros H d. exists out, d. intros b Hb. destruct (H b) as [E D].
  split; congruence.
Qed.

(** An operation that adds the delimiter, a text, and sets a delimiter. *)
Lemma appends_delim (g : buffer -> buffer) (out d' : gostring) :
  (forall b, emitted (g b) = emitted b ++ delim b ++ out /\ delim (g b) = d') ->
  appends g.
Proof.
  intros H d. exists (d ++ out), d'. intros b Hb. destruct (H b) as [E D].
  split; congruence.
Qed.

Lemma goappend_delim s b : delim (goappend s b) = delim b.
Proof. unfold goappend. destruct (_ <=? _); reflexivity. Qed.

Lemma write_appends strs : appends (write strs).
Proof.
  apply appends_const with (out := concat strs). intros b.
  split; [apply write_emitted | apply write_delim].
Qed.

Lemma writeBytes_appends s : appends (writeBytes s).
Proof.
  apply appends_const with (out := s). intros b.
  rewrite writeBytes_write1. split; [apply write1_emitted | apply write1_delim].
Qed.

Lemma goappend_appends s : appends (goappend s).
Proof.
  apply appends_const with (out := s). intros b.
  split; [apply goappend_emitted | apply goappend_delim].
Qed.

Lemma quote_appends s : appends (quote s).
Proof.
  apply appends_delim with (out := quoted s) (d' := comma). intros b.
  split; [apply quote_emitted | reflexivity].
Qed.

Lemma quoteBytes_appends s : appends (quoteBytes s).
Proof.
  intros d. exists (d ++ quoted s), d. intros b Hb.
  rewrite quoteBytes_emitted, quoteBytes_delim, Hb. auto.
Qed.

Lemma open_appends p : appends (open p).
Proof.
  apply appends_delim with (out := p) (d' := []). intros b.
  split; [apply open_emitted | reflexivity].
Qed.

Lemma colon_appends : appends colon.
Proof.
  intros d. exists (bs ":"), []. intros b _.
  split; [apply colon_emitted | reflexivity].
Qed.

Lemma close_appends p : appends (close p).
Proof.
  intros d. exists p, comma. intros b _.
  split; [apply close_emitted | reflexivity].
Qed.

Lemma scalar_head_appends : appends scalar_head.
Proof.
  apply appends_delim with (out := []) (d' := []). intros b.
  rewrite app_nil_r. split; [apply scalar_head_emitted | apply scalar_head_delim].
Qed.

Lemma set_delim_appends d0 : appends (set_delim d0).
Proof.
  intros d. exists [], d0. intros b _. rewrite app_nil_r. auto.
Qed.

Lemma scalar_string_appends s : appends (scalar_string s).
Proof.
  unfold scalar_string.
  apply (appends_after _ (set_delim_appends comma)).
  apply (appends_after _ (quote_appends s)).
  apply scalar_head_appends.
Qed.

Lemma scalar_nil_appends : appends scalar_nil.
Proof.
  unfold scalar_nil.
  apply (appends_after _ (set_delim_appends comma)).
  apply (appends_after _ (write_appends _)).
  apply scalar_head_appends.
Qed.

Lemma fold_appends {A} (f : buffer -> A -> buffer) (l : list A) :
  Forall (fun x => appends (fun b => f b x)) l ->
  forall g, appends g -> appends (fun b => fold_left f l (g b)).
Proof.
  induction 1 as [|x l Hx _ IH]; intros g Hg; cbn [fold_left]; [exact Hg|].
  apply (IH (fun b => f (g b) x)). apply (appends_after _ Hx), Hg.
Qed.

Lemma rawmap_loop_appends v :
  Forall (fun x => appends (scalar x)) v ->
  forall even g, appends g ->
  appends (fun b => rawmap_loop growcap formatFloat S even v (g b)).
Proof.
  induction 1 as [|x v Hx _ IH]; intros even g Hg; cbn [rawmap_loop];
    [exact Hg|].
  apply (IH (negb even)
           (fun b => if even then colon (quote (S x) (g b))
                     else scalar x (g b))).
  destruct even.
  - apply (appends_after _ colon_appends).
    apply (appends_after _ (quote_appends _)), Hg.
  - apply (appends_after _ Hx), Hg.
Qed.

(** The tail of every case of [scalar]: what follows [scalar_head]. *)
Lemma scalar_case_appends (k : buffer -> buffer) :
  appends k -> appends (fun b => set_delim comma (k (scalar_head b))).
Proof.
  intros Hk. apply (appends_after _ (set_delim_appends comma)).
  apply (appends_after _ Hk), scalar_head_appends.
Qed.

Lemma container_appends (p q : gostring) (k : buffer -> buffer) :
  (forall g, appends g -> appends (fun b => k (g b))) ->
  appends (fun b => close q (k (open p b))).
Proof.
  intros Hk. apply (appends_after _ (close_appends q)).
  apply Hk, open_appends.
Qed.

Lemma scalar_appends v : appends (scalar v).
Proof.
  induction v using value_ind_nested.
  - apply (scalar_case_appends _ (write_appends _)).
  - apply (scalar_case_appends _ (quote_appends _)).
  - apply (scalar_case_appends _ (quoteBytes_appends _)).
  - apply (scalar_case_appends _ (goappend_appends _)).
  - apply (scalar_case_appends _ (goappend_appends _)).
  - apply (scalar_case_appends _ (goappend_appends _)).
  - apply (scalar_case_appends _ (goappend_appends _)).
  - destruct v; apply (scalar_case_appends _ (write_appends _)).
  - (* []string *)
    apply (scalar_case_appends
             (fun b => close (bs "]")
                (fold_left (fun b s => scalar_string s b) v (open (bs "[") b)))).
    apply container_appends. intros g Hg.
    apply fold_appends; [|exact Hg].
    apply Forall_forall. intros s _. apply scalar_string_appends.
  - (* AList *)
    apply (scalar_case_appends
             (fun b => close (bs "]")
                (fold_left (fun b s => scalar s b) v (open (bs "[") b)))).
    apply container_appends. intros g Hg.
    apply fold_appends; [|exact Hg].
    eapply Forall_impl; [|eassumption]. auto.
  - (* RawMap *)
    apply (scalar_case_appends
             (fun b => close (bs "}")
                (let b1 := rawmap_loop growcap formatFloat S true v
                             (open (bs "{") b) in
                 if Z.land 1 (len_of v) =? 1 then scalar_nil b1 else b1))).
    cbv zeta. destruct (Z.land 1 (len_of v) =? 1).
    + apply (container_appends _ _
               (fun b => scalar_nil
                  (rawmap_loop growcap formatFloat S true v b))).
      intros g Hg. apply (appends_after _ scalar_nil_appends).
      apply rawmap_loop_appends; assumption.
    + apply container_appends. intros g Hg.
      apply rawmap_loop_appends; assumption.
  - (* nil AMap *)
    apply appends_id.
  - (* AMap *)
    destruct m as [|e m]; [apply appends_id|].
    apply (scalar_case_appends
             (fun b => close (bs "}")
                (fold_left (fun b kv => scalar (snd kv)
                                          (colon (quote (fst kv) b)))
                           (e :: m) (open (bs "{") b)))).
    apply container_appends. intros g Hg.
    apply fold_appends; [|exact Hg].
    eapply Forall_impl; [|eassumption]. cbv beta. intros kv Hkv.
    apply (appends_after _ Hkv).
    apply (appends_after _ colon_appends), quote_appends.
  - (* map[string]interface{} *)
    apply (scalar_case_appends
             (fun b => close (bs "}")
                (fold_left (fun b kf => snd kf (colon (quote (fst kf) b)))
                   (sort_keys (map (fun kv => (fst kv, scalar (snd kv))) m))
                   (open (bs "{") b)))).
    apply container_appends. intros g Hg.
    apply fold_appends; [|exact Hg].
    apply sort_keys_Forall, Forall_map.
    eapply Forall_impl; [|eassumption]. cbv beta. intros kv Hkv.
    cbn [fst snd]. apply (appends_after _ Hkv).
    apply (appends_after _ colon_appends), quote_appends.
  - apply (scalar_case_appends _ (quote_appends _)).
  - destruct r.
    + apply (scalar_case_appends _ (writeBytes_appends _)).
    + apply (scalar_case_appends _ (quote_appends _)).
Qed.

(** X10.  What [scalar] adds to a line for a value depends on the state
    of the buffer through the pending delimiter only: whatever two
    buffers hold, have sent and have locked, the same value gets the same
    bytes in both and leaves the same delimiter, [comma] unless the value
    is an empty ordered map. *)
Theorem scalar_same_bytes_in_any_buffer (v : value) (b1 b2 : buffer) :
  delim b1 = delim b2 ->
  (exists out,
     emitted (scalar v b1) = emitted b1 ++ out /\
     emitted (scalar v b2) = emitted b2 ++ out) /\
  delim (scalar v b1) = delim (scalar v b2) /\
  delim (scalar v b1) = if is_empty_amap v then delim b1 else comma.
Proof.
  intros Hd. destruct (scalar_appends v (delim b1)) as (out & d' & H).
  destruct (H b1 eq_refl) as [E1 D1].
  destruct (H b2 (eq_sym Hd)) as [E2 D2].
  split; [exists out; auto|]. split; [congruence|].
  destruct v as [ | | | | | | | | | | | [[|e m]|] | | | ]; reflexivity.
Qed.

(** ** The mutex over the life of a buffer *)

Lemma balanced_from_app t : forall u h,
  balanced_from h (t ++ u) =
  balanced_from h t &&
  balanced_from (fold_left (fun h e => match e with
                                       | EvLock => true
                                       | EvUnlock => false
                                       | EvWrite _ => h
                                       end) t h) u.
Proof.
  induction t as [|e t IH]; intros u h; [reflexivity|].
  destruct e; cbn [app balanced_from fold_left]; rewrite IH;
    rewrite ?andb_assoc; reflexivity.
Qed.

Lemma balanced_from_writes ws h : balanced_from h (map EvWrite ws) = true.
Proof. induction ws; simpl; auto. Qed.

Lemma flows_mutex_ok b b' : mutex_ok b -> flows b b' -> mutex_ok b'.
Proof.
  intros [Hb Hh] [[Ht Hl]|[Hl [ws Ht]]]; unfold mutex_ok.
  - rewrite Ht, Hl. auto.
  - rewrite Ht, Hl. unfold balanced, held.
    rewrite !balanced_from_app, !fold_left_app. fold (held (trace b)).
    unfold balanced in Hb. rewrite Hb, Hh, held_writes, balanced_from_writes.
    destruct (locked b); split; reflexivity.
Qed.

Lemma unlock_mutex_ok b : mutex_ok b -> mutex_ok (unlock b).
Proof.
  intros [Hb Hh]. unfold mutex_ok. rewrite unlock_trace, unlock_locked.
  unfold balanced, held.
  rewrite !balanced_from_app, !fold_left_app. fold (held (trace b)).
  unfold balanced in Hb. rewrite Hb, Hh, held_writes, balanced_from_writes.
  destruct (locked b); split; reflexivity.
Qed.

Lemma runs_mutex_ok b0 b : mutex_ok b0 -> runs b0 b -> mutex_ok b.
Proof.
  intros H0. induction 1 as [b|b b' b'' _ IH Hs|b b' _ IH].
  - exact H0.
  - eapply flows_mutex_ok; [apply IH, H0|].
    eapply step_flows, Hs.
  - apply unlock_mutex_ok, IH, H0.
Qed.

(** X11.  Over the whole life of a buffer, lines composed and released
    one after the other in any number, the engine locks [outMu] only when
    the buffer does not hold it and unlocks it only when it does, the
    flag [locked] says at every moment whether it holds it, and after
    each release it does not. *)
Theorem mutex_locked_and_unlocked_in_turn (b0 b : buffer) :
  balanced (trace b0) = true -> held (trace b0) = locked b0 ->
  runs b0 b ->
  balanced (trace b) = true /\
  held (trace b) = locked b /\
  balanced (trace (unlock b)) = true /\
  held (trace (unlock b)) = false.
Proof.
  intros H1 H2 Hr.
  destruct (runs_mutex_ok b0 b (conj H1 H2) Hr) as [A B].
  destruct (unlock_mutex_ok b (conj A B)) as [C D].
  rewrite unlock_locked in D. auto.
Qed.

(** ** Padding with zeros *)

Lemma dec_value_zeros n ds : dec_value (repeat x30 n ++ ds) = dec_value ds.
Proof.
  unfold dec_value. rewrite fold_left_app. f_equal.
  induction n as [|n IH]; [reflexivity|]. simpl repeat. cbn [fold_left].
  exact IH.
Qed.

Lemma forallb_zeros n : forallb is_digit (repeat x30 n) = true.
Proof. induction n; simpl; auto. Qed.

(** X12.  With room for the wider of the number and the width asked for,
    [int] returns, and what it adds behind the bytes that were there is
    the number in decimal with zeros before it up to that width: never
    fewer digits than the number has, and, for a number that is not
    negative, digits only that spell the number. *)
Theorem int_pads_and_never_truncates (val digits : Z) (b : buffer) :
  len (buf b) + Z.max digits (len (formatInt val)) <= cap b ->
  exists b',
    int val digits b = Some b' /\
    buf b' = buf b ++ int_text val digits /\
    cap b' = cap b /\ trace b' = trace b /\
    int_text val digits =
      repeat x30 (Z.to_nat (digits - len (formatInt val))) ++ formatInt val /\
    len (int_text val digits) = Z.max digits (len (formatInt val)) /\
    (0 <= val < 10 ^ 18 ->
       forallb is_digit (int_text val digits) = true /\
       dec_value (int_text val digits) = val).
Proof.
  intros H. destruct b as [x cp tr dl lk]. cbn [buf cap] in H.
  rewrite int_fits by exact H. eexists. split; [reflexivity|].
  cbn [buf cap trace]. repeat split.
  - unfold int_text. rewrite len_app, len_repeat.
    pose proof (len_nonneg (formatInt val)). lia.
  - destruct (formatInt_natural val H0) as (_ & Hd & _).
    unfold int_text. rewrite forallb_app, forallb_zeros, Hd. reflexivity.
  - destruct (formatInt_natural val H0) as (_ & _ & Hv & _).
    unfold int_text. rewrite dec_value_zeros. exact Hv.
Qed.

(** ** A timestamp with too little room *)

Lemma int_overflows val digits x cp tr dl lk :
  len x + len (formatInt val) <= cp ->
  len (formatInt val) < digits -> cp < len x + digits ->
  int val digits (mkBuffer x cp tr dl lk) = None.
Proof.
  intros H1 H2 H3. unfold int. cbn [buf].
  rewrite goappend_fits_mk by lia. cbn [buf cap]. rewrite len_app.
  replace (len x + len (formatInt val) - len x) with (len (formatInt val)) by lia.
  destruct (len (formatInt val) <? digits) eqn:E1; [|lia].
  destruct (cp <? len x + digits) eqn:E2; [reflexivity|lia].
Qed.

Lemma formatInt_four_digits y : 1000 <= y <= 9999 -> len (formatInt y) = 4.
Proof.
  intros H.
  assert (A : forallb (fun y => (y <? 1000) || (len (formatInt y) =? 4))
                (upto (Z.to_nat 10000)) = true) by (vm_compute; reflexivity).
  rewrite forallb_forall in A.
  specialize (A y (upto_In (Z.to_nat 10000) y ltac:(lia))).
  rewrite orb_true_iff, Z.ltb_lt, Z.eqb_eq in A. lia.
Qed.

Lemma formatInt_short ms :
  0 <= ms < 100 ->
  1 <= len (formatInt ms) <= 2 /\ (ms < 10 -> len (formatInt ms) = 1).
Proof.
  intros H.
  assert (A : forallb (fun v => ((len (formatInt v) =? 1)
                                 || ((10 <=? v) && (len (formatInt v) =? 2))))
                (upto 100) = true) by (vm_compute; reflexivity).
  rewrite forallb_forall in A. specialize (A ms (upto_In 100 ms ltac:(lia))).
  rewrite orb_true_iff, andb_true_iff, Z.leb_le, !Z.eqb_eq in A. lia.
Qed.

(** X13.  [timestamp] asks for 22 bytes, but the text is 26 bytes long
    for a year of four digits and [int2] and [int] check nothing: on a
    buffer with exactly 22 bytes left and a millisecond of one digit, or
    with exactly 23 bytes left and a millisecond of one or two digits,
    the slice expression of [int] is out of range and the call panics. *)
Theorem timestamp_panics_when_nearly_full (now : utc) (b : buffer) :
  1000 <= year now <= 9999 ->
  0 <= nanosecond now ->
  (len (buf b) + 22 = cap b /\ nanosecond now < 10000000) \/
  (len (buf b) + 23 = cap b /\ nanosecond now < 100000000) ->
  timestamp now b = None.
Proof.
  intros Hy Hns Hroom.
  pose proof (formatInt_four_digits _ Hy) as LY.
  set (ms := Z.quot (nanosecond now) 1000000) in *.
  assert (Hms : 0 <= ms < 100 /\
                (len (buf b) + 22 = cap b -> ms < 10)).
  { unfold ms. split; [split; [apply Z.quot_pos; lia|]|].
    - apply Z.quot_lt_upper_bound; lia.
    - intros E. apply Z.quot_lt_upper_bound; lia. }
  destruct Hms as [Hms Hms1].
  destruct (formatInt_short ms Hms) as [F1 F2].
  assert (Ldq : len dq = 1) by reflexivity.
  assert (L1 : forall c, len [c] = 1) by reflexivity.
  destruct b as [x cp tr dl lk]. cbn [buf cap] in *.
  unfold timestamp. cbn [cap buf].
  destruct (cp <? len x + 22) eqn:E; [lia|]. cbv zeta.
  rewrite write_fits by lia.
  rewrite goappend_fits_mk by (rewrite ?len_app; lia).
  change (bs "-") with [x2d]. change (bs " ") with [x20].
  change (bs ":") with [x3a]. change (bs ".") with [x2e].
  repeat (rewrite write_fits by (rewrite ?len_app, ?len_int2_text, ?L1; lia);
          rewrite int2_fits by (rewrite ?len_app, ?len_int2_text, ?L1; lia)).
  rewrite write_fits by (rewrite ?len_app, ?len_int2_text, ?L1; lia).
  fold ms. rewrite int_overflows; [reflexivity| | |];
    rewrite ?len_app, ?len_int2_text, ?L1; lia.
Qed.

End More.

(** ** The slice stays in the scratch array *)

Section Scratch.

Variable growcap : Z -> Z -> Z.
Variable formatFloat : spec_float -> Z -> gostring.
Variable S : value -> gostring.

(** [strconv.AppendFloat] with format ['g'] and the shortest precision
    writes at most 24 bytes; 64 is the room [scalar] leaves for it. *)
Hypothesis float_text_short : forall f bitSize, len (formatFloat f bitSize) <= 64.

Local Abbreviation goappend := (goappend growcap).
Local Abbreviation writeBytes := (writeBytes growcap).
Local Abbreviation quoteBytes := (quoteBytes growcap).
Local Abbreviation scalar := (scalar growcap formatFloat S).
Local Abbreviation pair := (pair growcap formatFloat S).
Local Abbreviation pairs := (pairs growcap formatFloat S).

Lemma set_delim_in_scratch d b : in_scratch b -> in_scratch (set_delim d b).
Proof. exact (fun H => H). Qed.

Lemma lock_in_scratch b : in_scratch b -> in_scratch (lock b).
Proof.
  intros [Hc Hl]. unfold in_scratch. rewrite lock_cap, lock_buf, len_nil.
  destruct (buf b); rewrite ?Hc; unfold scratch_cap; lia.
Qed.

Lemma unlock_in_scratch b : in_scratch b -> in_scratch (unlock b).
Proof.
  intros [Hc Hl]. unfold in_scratch. rewrite unlock_buf, len_nil.
  unfold unlock. destruct (buf b), (locked b) eqn:L; simpl; rewrite ?L; simpl;
    rewrite ?Hc; unfold scratch_cap; lia.
Qed.

Lemma write1_in_scratch s b : in_scratch b -> in_scratch (write1 s b).
Proof.
  intros Hb. pose proof (write_reslice_in_range s b) as Hr. cbv zeta in Hr.
  unfold write1.
  assert (H1 : in_scratch (if cap b <? len (buf b) + len s then lock b else b)).
  { destruct (cap b <? len (buf b) + len s);
      [apply lock_in_scratch, Hb | exact Hb]. }
  destruct (cap (if cap b <? len (buf b) + len s then lock b else b) <? len s)
    eqn:E.
  - exact H1.
  - specialize (Hr eq_refl). destruct H1 as [Hc _].
    split; [exact Hc|]. cbn [buf cap set_buf]. rewrite len_app. exact Hr.
Qed.

Lemma write_in_scratch strs : forall b, in_scratch b -> in_scratch (write strs b).
Proof.
  induction strs as [|s strs IH]; intros b Hb; [exact Hb|].
  rewrite write_cons. apply IH, write1_in_scratch, Hb.
Qed.

Lemma writeBytes_in_scratch s b : in_scratch b -> in_scratch (writeBytes s b).
Proof. rewrite writeBytes_write1. apply write1_in_scratch. Qed.

Lemma escape_loop_in_scratch rest : forall run b,
  in_scratch b -> in_scratch (escape_loop run rest b).
Proof.
  induction rest as [|c rest IH]; intros run b Hb; simpl.
  - apply write1_in_scratch, Hb.
  - destruct (noEsc c); apply IH; [exact Hb|].
    apply write1_in_scratch, write1_in_scratch, Hb.
Qed.

Lemma quote_in_scratch s b : in_scratch b -> in_scratch (quote s b).
Proof.
  intros Hb. unfold quote, escape.
  apply set_delim_in_scratch, write_in_scratch, escape_loop_in_scratch,
    write_in_scratch, Hb.
Qed.

Lemma quoteBytes_in_scratch s b : in_scratch b -> in_scratch (quoteBytes s b).
Proof.
  intros Hb. change (in_scratch (set_delim comma (quoteBytes s b))).
  rewrite <- quote_quoteBytes. apply quote_in_scratch, Hb.
Qed.

Lemma open_in_scratch p b : in_scratch b -> in_scratch (open p b).
Proof. intros Hb. unfold open. apply set_delim_in_scratch, write_in_scratch, Hb. Qed.

Lemma colon_in_scratch b : in_scratch b -> in_scratch (colon b).
Proof. intros Hb. unfold colon. apply set_delim_in_scratch, write_in_scratch, Hb. Qed.

Lemma close_in_scratch p b : in_scratch b -> in_scratch (close p b).
Proof. intros Hb. unfold close. apply set_delim_in_scratch, write_in_scratch, Hb. Qed.

Lemma scalar_head_in_scratch b :
  in_scratch b ->
  in_scratch (scalar_head b) /\
  len (buf (scalar_head b)) + 64 <= cap (scalar_head b).
Proof.
  intros Hb. unfold scalar_head. cbv zeta.
  assert (H1 : in_scratch (set_delim [] (write [delim b] b)))
    by (apply set_delim_in_scratch, write_in_scratch, Hb).
  destruct (_ <? _) eqn:E.
  - split; [apply lock_in_scratch, H1|].
    destruct (lock_in_scratch _ H1) as [Hc _].
    rewrite lock_buf, len_nil, Hc. unfold scratch_cap. lia.
  - split; [exact H1|]. lia.
Qed.

Lemma number_in_scratch txt b :
  len txt <= 64 -> in_scratch b ->
  in_scratch (set_delim comma (goappend txt (scalar_head b))).
Proof.
  intros Ht Hb. destruct (scalar_head_in_scratch b Hb) as [[Hc _] Hr].
  rewrite goappend_fits by lia.
  split; [exact Hc|]. cbn [buf cap set_buf set_delim]. rewrite len_app. lia.
Qed.

Lemma scalar_string_in_scratch s b :
  in_scratch b -> in_scratch (scalar_string s b).
Proof.
  intros Hb. unfold scalar_string.
  apply set_delim_in_scratch, quote_in_scratch, scalar_head_in_scratch, Hb.
Qed.

Lemma scalar_nil_in_scratch b : in_scratch b -> in_scratch (scalar_nil b).
Proof.
  intros Hb. unfold scalar_nil.
  apply set_delim_in_scratch, write_in_scratch, scalar_head_in_scratch, Hb.
Qed.

Lemma fold_in_scratch {A} (f : buffer -> A -> buffer) (l : list A) :
  Forall (fun x => forall b, in_scratch b -> in_scratch (f b x)) l ->
  forall b, in_scratch b -> in_scratch (fold_left f l b).
Proof.
  induction 1 as [|x l Hx _ IH]; intros b Hb; simpl; [exact Hb|].
  apply IH, Hx, Hb.
Qed.

Lemma rawmap_loop_in_scratch v :
  Forall (fun x => forall b, in_scratch b -> in_scratch (scalar x b)) v ->
  forall even b, in_scratch b ->
  in_scratch (rawmap_loop growcap formatFloat S even v b).
Proof.
  induction 1 as [|x v Hx _ IH]; intros even b Hb; simpl; [exact Hb|].
  apply IH. destruct even; [apply colon_in_scratch, quote_in_scratch, Hb|].
  apply Hx, Hb.
Qed.

Lemma scalar_in_scratch v : forall b, in_scratch b -> in_scratch (scalar v b).
Proof.
  induction v using value_ind_nested; intros b Hb.
  - apply scalar_nil_in_scratch, Hb.
  - apply scalar_string_in_scratch, Hb.
  - cbn [scalar].
    apply set_delim_in_scratch, quoteBytes_in_scratch, scalar_head_in_scratch, Hb.
  - apply number_in_scratch; [pose proof (formatInt_len v); lia | exact Hb].
  - apply number_in_scratch; [pose proof (formatUint_len v); lia | exact Hb].
  - apply number_in_scratch; [apply float_text_short | exact Hb].
  - apply number_in_scratch; [apply float_text_short | exact Hb].
  - cbn [scalar]. destruct v;
      apply set_delim_in_scratch, write_in_scratch, scalar_head_in_scratch, Hb.
  - cbn [scalar]. apply set_delim_in_scratch, close_in_scratch.
    apply fold_in_scratch;
      [|apply open_in_scratch, scalar_head_in_scratch, Hb].
    apply Forall_forall. intros s _ b0. apply scalar_string_in_scratch.
  - cbn [scalar]. apply set_delim_in_scratch, close_in_scratch.
    apply fold_in_scratch;
      [|apply open_in_scratch, scalar_head_in_scratch, Hb].
    eapply Forall_impl; [|eassumption]. auto.
  - rewrite scalar_VRawMap. apply set_delim_in_scratch, close_in_scratch.
    cbv zeta.
    assert (in_scratch (rawmap_loop growcap formatFloat S true v
                          (open (bs "{") (scalar_head b))))
      by (apply rawmap_loop_in_scratch;
          [assumption|apply open_in_scratch, scalar_head_in_scratch, Hb]).
    destruct (_ =? _); [apply scalar_nil_in_scratch|]; assumption.
  - exact Hb.
  - destruct m as [|e m]; [exact Hb|].
    cbn [scalar]. apply set_delim_in_scratch, close_in_scratch.
    apply fold_in_scratch;
      [|apply open_in_scratch, scalar_head_in_scratch, Hb].
    eapply Forall_impl; [|eassumption]. cbv beta. intros kv Hkv b0 Hb0.
    apply Hkv, colon_in_scratch, quote_in_scratch, Hb0.
  - rewrite scalar_VMap. apply set_delim_in_scratch, close_in_scratch.
    apply fold_in_scratch;
      [|apply open_in_scratch, scalar_head_in_scratch, Hb].
    apply sort_keys_Forall, Forall_map.
    eapply Forall_impl; [|eassumption]. cbv beta. intros kv Hkv b0 Hb0.
    cbn [fst snd]. apply Hkv, colon_in_scratch, quote_in_scratch, Hb0.
  - cbn [scalar].
    apply set_delim_in_scratch, quote_in_scratch, scalar_head_in_scratch, Hb.
  - cbn [scalar]. destruct r; apply set_delim_in_scratch;
      [apply writeBytes_in_scratch|apply quote_in_scratch];
      apply scalar_head_in_scratch, Hb.
Qed.

(** X14.  As long as a float is formatted in at most 64 bytes, no
    operation of the encoder moves the slice out of the scratch array or
    fills it past its capacity: after any of them [b.buf] still has the
    capacity of [scratch], so a line is composed without allocating. *)
Theorem encoder_stays_in_scratch (v : value)
    (m : option (list (gostring * value))) (strs : list gostring)
    (s k p : gostring) (b : buffer) :
  in_scratch b ->
  in_scratch (scalar v b) /\ in_scratch (pair k v b) /\
  in_scratch (pairs m b) /\
  in_scratch (write strs b) /\ in_scratch (writeBytes s b) /\
  in_scratch (quote s b) /\ in_scratch (quoteBytes s b) /\
  in_scratch (open p b) /\ in_scratch (colon b) /\ in_scratch (close p b) /\
  in_scratch (lock b) /\ in_scratch (unlock b).
Proof.
  intros Hb.
  split; [apply scalar_in_scratch, Hb|].
  split; [apply scalar_in_scratch, colon_in_scratch, quote_in_scratch, Hb|].
  split.
  { destruct m as [l|]; [|exact Hb]. cbn [pairs].
    apply fold_in_scratch; [|exact Hb].
    apply Forall_forall. intros kv _ b0 Hb0.
    apply scalar_in_scratch, colon_in_scratch, quote_in_scratch, Hb0. }
  split; [apply write_in_scratch, Hb|].
  split; [apply writeBytes_in_scratch, Hb|].
  split; [apply quote_in_scratch, Hb|].
  split; [apply quoteBytes_in_scratch, Hb|].
  split; [apply open_in_scratch, Hb|].
  split; [apply colon_in_scratch, Hb|].
  split; [apply close_in_scratch, Hb|].
  split; [apply lock_in_scratch, Hb | apply unlock_in_scratch, Hb].
Qed.

(** ** Lines too long for the scratch array *)

Lemma encodes1_step b b' :
  encodes1 growcap formatFloat S b b' -> step growcap formatFloat S b b'.
Proof. destruct 1; constructor. Qed.

Lemma encodes_composes b b' :
  encodes growcap formatFloat S b b' -> composes growcap formatFloat S b b'.
Proof.
  induction 1 as [b|b b' b'' _ IH H1]; [apply composes_nil|].
  eapply composes_snoc; [exact IH | apply encodes1_step, H1].
Qed.

Lemma pair_in_scratch k v b : in_scratch b -> in_scratch (pair k v b).
Proof.
  intros Hb. apply scalar_in_scratch, colon_in_scratch, quote_in_scratch, Hb.
Qed.

Lemma pairs_in_scratch m b : in_scratch b -> in_scratch (pairs m b).
Proof.
  intros Hb. destruct m as [l|]; [|exact Hb]. cbn [pairs].
  apply fold_in_scratch; [|exact Hb].
  apply Forall_forall. intros kv _ b0 Hb0. apply pair_in_scratch, Hb0.
Qed.

Lemma encodes1_in_scratch b b' :
  encodes1 growcap formatFloat S b b' -> in_scratch b -> in_scratch b'.
Proof.
  intros H Hb. destruct H.
  - apply lock_in_scratch, Hb.
  - apply write_in_scratch, Hb.
  - apply writeBytes_in_scratch, Hb.
  - apply quote_in_scratch, Hb.
  - apply quoteBytes_in_scratch, Hb.
  - apply escape_loop_in_scratch, Hb.
  - unfold escapeBytes. rewrite escapeBytes_loop_escape_loop.
    apply escape_loop_in_scratch, Hb.
  - apply open_in_scratch, Hb.
  - apply colon_in_scratch, Hb.
  - apply close_in_scratch, Hb.
  - apply pair_in_scratch, Hb.
  - apply pairs_in_scratch, Hb.
  - apply scalar_in_scratch, Hb.
Qed.

Lemma encodes_in_scratch b b' :
  encodes growcap formatFloat S b b' -> in_scratch b -> in_scratch b'.
Proof.
  induction 1 as [b|b b' b'' _ IH H1]; intros Hb; [exact Hb|].
  eapply encodes1_in_scratch; [exact H1 | apply IH, Hb].
Qed.

(** X20.  As long as a float is formatted in at most 64 bytes, a line
    that has grown longer than the scratch array, composed by the
    operations of the encoder, which are all but [int2], [int] and
    [timestamp], from a buffer that started in the scratch array without
    the mutex, holds the mutex: its first call was [outMu.Lock()] and only
    writes followed, so none of its bytes reached the stream without the
    mutex held; the release writes what is left and unlocks. *)
Theorem long_line_holds_the_lock (b0 b : buffer) :
  line_start b0 -> in_scratch b0 -> encodes growcap formatFloat S b0 b ->
  scratch_cap < len (emitted b) ->
  locked b = true /\
  (exists ws, trace b = EvLock :: map EvWrite ws) /\
  trace (unlock b) =
    trace b ++ map EvWrite (match buf b with [] => [] | _ => [buf b] end)
            ++ [EvUnlock].
Proof.
  intros Hs Hi He Hlong.
  destruct (encodes_in_scratch b0 b He Hi) as [Hc Hl].
  destruct (line_protocol growcap formatFloat S b0 b Hs (encodes_composes _ _ He))
    as [[Ht Hlk]|[ws [Ht Hlk]]].
  - unfold emitted in Hlong. rewrite Ht in Hlong. simpl in Hlong. lia.
  - split; [exact Hlk|]. split; [exists ws; exact Ht|].
    rewrite unlock_trace, Hlk. reflexivity.
Qed.

End Scratch.

(** ** Severities and the project ID *)

(** X15.  [GcpLevelName] looks at the first byte only and panics on the
    empty string; each level name of Lager gets the value its comment
    lists, and a name that starts with anything else, a lower-case
    letter included, gets 0. *)
Theorem GcpLevelName_first_byte (c : byte) (rest rest' : gostring) :
  GcpLevelName (c :: rest) = GcpLevelName (c :: rest') /\
  GcpLevelName [] = None /\
  map GcpLevelName lager_levels =
    map Some [bs "600"; bs "600"; bs "500"; bs "400"; bs "300"; bs "200";
              bs "200"; bs "100"; bs "100"; bs "100"; bs "100"] /\
  (In c (bs "PEFWNAITDOG") \/ GcpLevelName (c :: rest) = Some (bs "0")).
Proof.
  split; [reflexivity|]. split; [reflexivity|]. split; [reflexivity|].
  destruct c; first [right; reflexivity | left; simpl; tauto].
Qed.


(** X17.  Once [GcpProjectID] has returned a project ID that is not
    empty, the ID is kept in [projectID], and every later call returns
    it, without an error, whatever the environment and the metadata
    server then answer. *)
Theorem GcpProjectID_is_cached (projectID env : gostring) (net : lookup)
    (projectID' id : gostring) :
  GcpProjectID projectID env net = (projectID', (id, None)) ->
  id <> [] ->
  projectID' = id /\
  forall env2 net2,
    GcpProjectID projectID' env2 net2 = (projectID', (id, None)).
Proof.
  unfold GcpProjectID. intros H Hne.
  assert (E : projectID' = id).
  { destruct projectID as [|c p]; [destruct env as [|c e]|];
      [destruct net| |]; cbv beta iota zeta in H; try discriminate H;
      injection H; intros; subst; reflexivity. }
  split; [exact E|]. subst projectID'. intros env2 net2.
  destruct id; [congruence|reflexivity].
Qed.

(** X18.  When [GcpProjectID] returns an error, the ID it returns is
    empty and so was and stays [projectID], and the environment variable
    was empty too: the request is made only when neither is set, and a
    failure is not remembered.  A variable or an environment that is set
    answers without a request. *)
Theorem GcpProjectID_failure (projectID env : gostring) (net : lookup)
    (projectID' id : gostring) (err : project_error) :
  GcpProjectID projectID env net = (projectID', (id, Some err)) ->
  id = [] /\ projectID = [] /\ env = [] /\ projectID' = [] /\
  (forall b, net <> Body b) /\
  (forall p e net2, p ++ e <> [] ->
     exists id2, GcpProjectID p e net2 = (id2, (id2, None)) /\ id2 <> []).
Proof.
  unfold GcpProjectID. intros H.
  assert (A : id = [] /\ projectID = [] /\ env = [] /\ projectID' = [] /\
              (forall b, net <> Body b)).
  { destruct projectID as [|c p]; [destruct env as [|c e]|];
      [destruct net| |]; cbv beta iota zeta in H; try discriminate;
      injection H as <- <- _; repeat split; discriminate. }
  destruct A as (A1 & A2 & A3 & A4 & A5). repeat split; try assumption.
  intros p e net2 Hpe.
  destruct p as [|c p];
    [destruct e as [|c e]; [exfalso; apply Hpe; reflexivity|]|];
    eexists; split; try reflexivity; discriminate.
Qed.

(** ** Leaves *)

Section Lines.

Variable growcap : Z -> Z -> Z.
Variable formatFloat : spec_float -> Z -> gostring.
Variable S : value -> gostring.

Local Abbreviation scalar := (scalar growcap formatFloat S).
Local Abbreviation composes := (composes growcap formatFloat S).

Lemma scalar_leaf_emitted (k : buffer -> buffer) (out : gostring) (b : buffer) :
  (forall h, emitted (k h) = emitted h ++ out) ->
  emitted (set_delim comma (k (scalar_head b))) = emitted b ++ delim b ++ out.
Proof.
  intros H. rewrite emitted_set_delim, H, scalar_head_emitted, <- app_assoc.
  reflexivity.
Qed.

(** X19.  The values without parts come out as the pending delimiter
    followed by: [null] for nil, [true] or [false] for a boolean, the
    decimal text for an integer, signed or not, the text that
    [json.Marshal] returned for a value of another type and, when it
    failed, the quoted string made of an exclamation mark, a space and
    the message of its error, so that the line goes on. *)
Theorem scalar_leaves (b : buffer) (x : Z) (out msg : gostring) :
  emitted (scalar VNil b) = emitted b ++ delim b ++ bs "null" /\
  emitted (scalar (VBool true) b) = emitted b ++ delim b ++ bs "true" /\
  emitted (scalar (VBool false) b) = emitted b ++ delim b ++ bs "false" /\
  emitted (scalar (VInt x) b) = emitted b ++ delim b ++ formatInt x /\
  emitted (scalar (VUint x) b) = emitted b ++ delim b ++ formatUint x /\
  emitted (scalar (VOther (Marshalled out)) b) = emitted b ++ delim b ++ out /\
  emitted (scalar (VOther (MarshalError msg)) b) =
    emitted b ++ delim b ++ dq ++ spec_escape (bs "! " ++ msg) ++ dq.
Proof.
  repeat split; cbn [scalar].
  - apply scalar_leaf_emitted. intros h. rewrite write_emitted. reflexivity.
  - apply scalar_leaf_emitted. intros h. rewrite write_emitted. reflexivity.
  - apply scalar_leaf_emitted. intros h. rewrite write_emitted. reflexivity.
  - apply scalar_leaf_emitted. intros h. apply goappend_emitted.
  - apply scalar_leaf_emitted. intros h. apply goappend_emitted.
  - apply scalar_leaf_emitted. intros h.
    rewrite writeBytes_write1. apply write1_emitted.
  - rewrite emitted_set_delim, quote_emitted, scalar_head_emitted,
      scalar_head_delim, <- !app_assoc. reflexivity.
Qed.

End Lines.

(** ** More examples *)

Lemma fitting_fragment_is_buffered_witness :
  len (buf newBuffer) + len (bs "hello") <= cap newBuffer /\
  trace (write [bs "hello"] newBuffer) = trace newBuffer.
Proof.
  assert (H : len (buf newBuffer) + len (bs "hello") <= cap newBuffer)
    by (vm_compute; discriminate).
  split; [exact H|].
  destruct (fitting_fragment_is_buffered growcap_twice (bs "hello") newBuffer H)
    as (_ & _ & A & _).
  exact A.
Defined.

Lemma oversized_fragment_is_written_witness :
  cap newBuffer < len (repeat x78 (Z.to_nat 20000)) /\
  locked (write [repeat x78 (Z.to_nat 20000)] newBuffer) = true.
Proof.
  assert (H1 : cap newBuffer < len (repeat x78 (Z.to_nat 20000)))
    by (vm_compute; reflexivity).
  assert (H2 : scratch_cap < len (repeat x78 (Z.to_nat 20000)))
    by (vm_compute; reflexivity).
  split; [exact H1|].
  destruct (oversized_fragment_is_written _ newBuffer H1 H2)
    as (_ & _ & _ & A).
  exact A.
Defined.

Lemma generic_map_as_sorted_amap_witness :
  Permutation [(bs "b", VInt 2); (bs "a", VInt 1)]
              [(bs "a", VInt 1); (bs "b", VInt 2)] /\
  sort_keys [(bs "b", VInt 2); (bs "a", VInt 1)] =
    [(bs "a", VInt 1); (bs "b", VInt 2)] /\
  emitted (scalar growcap_twice formatFloat_zero S_text
             (VMap [(bs "b", VInt 2); (bs "a", VInt 1)]) newBuffer) =
    bs "{" ++ dq ++ bs "a" ++ dq ++ bs ":1, " ++ dq ++ bs "b" ++ dq ++ bs ":2}" /\
  scalar growcap_twice formatFloat_zero S_text
    (VMap [(bs "b", VInt 2); (bs "a", VInt 1)]) newBuffer =
  scalar growcap_twice formatFloat_zero S_text
    (VAMap (Some [(bs "a", VInt 1); (bs "b", VInt 2)])) newBuffer.
Proof.
  assert (H1 : [(bs "b", VInt 2); (bs "a", VInt 1)] <> []) by discriminate.
  assert (H2 : Permutation [(bs "b", VInt 2); (bs "a", VInt 1)]
                           [(bs "a", VInt 1); (bs "b", VInt 2)])
    by apply perm_swap.
  assert (H3 : NoDup (map fst [(bs "b", VInt 2); (bs "a", VInt 1)])).
  { repeat constructor; simpl; intuition discriminate. }
  split; [exact H2|]. split; [reflexivity|]. split; [reflexivity|].
  destruct (generic_map_as_sorted_amap growcap_twice formatFloat_zero S_text
              _ _ newBuffer H1 H2 H3) as (A & _).
  exact A.
Defined.

Lemma scalar_same_bytes_in_any_buffer_witness :
  delim newBuffer = delim nearly_full /\
  delim (scalar growcap_twice formatFloat_zero S_text amap_ab newBuffer) =
  delim (scalar growcap_twice formatFloat_zero S_text amap_ab nearly_full).
Proof.
  assert (H : delim newBuffer = delim nearly_full) by reflexivity.
  split; [exact H|].
  destruct (scalar_same_bytes_in_any_buffer growcap_twice formatFloat_zero
              S_text amap_ab newBuffer nearly_full H) as (_ & A & _).
  exact A.
Defined.

Lemma mutex_locked_and_unlocked_in_turn_witness :
  runs growcap_twice formatFloat_zero S_text newBuffer
    (quote (bs "next") (unlock long_line)) /\
  balanced (trace (quote (bs "next") (unlock long_line))) = true.
Proof.
  assert (H : runs growcap_twice formatFloat_zero S_text newBuffer
                (quote (bs "next") (unlock long_line))).
  { eapply runs_step; [|apply step_quote].
    apply runs_unlock. eapply runs_step; [apply runs_nil|].
    unfold long_line. apply step_write. }
  split; [exact H|].
  destruct (mutex_locked_and_unlocked_in_turn growcap_twice formatFloat_zero
              S_text newBuffer _ eq_refl eq_refl H) as (A & _).
  exact A.
Defined.

Lemma int_pads_and_never_truncates_witness :
  len (buf newBuffer) + Z.max 3 (len (formatInt 5)) <= cap newBuffer /\
  exists b', int growcap_twice 5 3 newBuffer = Some b'.
Proof.
  assert (H : len (buf newBuffer) + Z.max 3 (len (formatInt 5))
              <= cap newBuffer) by (vm_compute; discriminate).
  split; [exact H|].
  destruct (int_pads_and_never_truncates growcap_twice 5 3 newBuffer H)
    as (b' & A & _).
  exists b'. exact A.
Defined.

Lemma timestamp_panics_when_nearly_full_witness :
  len (buf nearly_full) + 22 = cap nearly_full /\
  timestamp growcap_twice instant_5ms nearly_full = None.
Proof.
  assert (H : len (buf nearly_full) + 22 = cap nearly_full)
    by (vm_compute; reflexivity).
  split; [exact H|].
  apply timestamp_panics_when_nearly_full.
  - unfold instant_5ms; simpl; lia.
  - unfold instant_5ms; simpl; lia.
  - left. split; [exact H|]. unfold instant_5ms; simpl; lia.
Defined.

Lemma encoder_stays_in_scratch_witness :
  in_scratch newBuffer /\
  in_scratch (scalar growcap_twice formatFloat_zero S_text amap_ab newBuffer).
Proof.
  assert (H0 : forall (f : spec_float) (bitSize : Z),
             len (formatFloat_zero f bitSize) <= 64)
    by (intros; vm_compute; discriminate).
  assert (H : in_scratch newBuffer)
    by (split; [reflexivity | vm_compute; discriminate]).
  split; [exact H|].
  destruct (encoder_stays_in_scratch growcap_twice formatFloat_zero S_text H0
              amap_ab None [] [] [] [] newBuffer H) as (A & _).
  exact A.
Defined.

Lemma GcpProjectID_is_cached_witness :
  GcpProjectID [] [] (Body (bs "my-project")) =
    (bs "my-project", (bs "my-project", None)) /\
  GcpProjectID (bs "my-project") (bs "other") (DoFails (bs "timeout")) =
    (bs "my-project", (bs "my-project", None)).
Proof.
  assert (H : GcpProjectID [] [] (Body (bs "my-project")) =
              (bs "my-project", (bs "my-project", None))) by reflexivity.
  split; [exact H|].
  destruct (GcpProjectID_is_cached _ _ _ _ _ H ltac:(discriminate)) as [_ A].
  apply A.
Defined.

Lemma GcpProjectID_failure_witness :
  GcpProjectID [] [] (DoFails (bs "timeout")) =
    ([], ([], Some (CantGet (bs "timeout")))) /\
  exists id2, GcpProjectID [] (bs "from-env") (DoFails (bs "timeout")) =
                (id2, (id2, None)).
Proof.
  assert (H : GcpProjectID [] [] (DoFails (bs "timeout")) =
              ([], ([], Some (CantGet (bs "timeout"))))) by reflexivity.
  split; [exact H|].
  destruct (GcpProjectID_failure _ _ _ _ _ _ H) as (_ & _ & _ & _ & _ & A).
  destruct (A [] (bs "from-env") (DoFails (bs "timeout")) ltac:(discriminate))
    as (id2 & E & _).
  exists id2. exact E.
Defined.

Lemma long_line_holds_the_lock_witness :
  line_start newBuffer /\
  in_scratch newBuffer /\
  scratch_cap < len (emitted long_line) /\
  locked long_line = true.
Proof.
  assert (H0 : forall f bitSize, len (formatFloat_zero f bitSize) <= 64)
    by (intros; vm_compute; discriminate).
  assert (H1 : line_start newBuffer) by (split; reflexivity).
  assert (H2 : in_scratch newBuffer)
    by (split; [reflexivity | vm_compute; discriminate]).
  assert (H3 : encodes growcap_twice formatFloat_zero S_text
                 newBuffer long_line).
  { eapply encodes_snoc; [apply encodes_nil | apply enc_write]. }
  assert (H4 : scratch_cap < len (emitted long_line))
    by (vm_compute; reflexivity).
  split; [exact H1|]. split; [exact H2|]. split; [exact H4|].
  destruct (long_line_holds_the_lock growcap_twice formatFloat_zero S_text
              H0 newBuffer long_line H1 H2 H3 H4) as (A & _).
  exact A.
Defined.

(** * Lines that fit *)

Section FastPath.

Variable growcap : Z -> Z -> Z.
Variable formatFloat : spec_float -> Z -> gostring.
Variable S : value -> gostring.

Local Abbreviation goappend := (goappend growcap).
Local Abbreviation writeBytes := (writeBytes growcap).
Local Abbreviation escapeBytes := (escapeBytes growcap).
Local Abbreviation quoteBytes := (quoteBytes growcap).
Local Abbreviation int := (int growcap).
Local Abbreviation timestamp := (timestamp growcap).
Local Abbreviation scalar := (scalar growcap formatFloat S).
Local Abbreviation pair := (pair growcap formatFloat S).
Local Abbreviation pairs := (pairs growcap formatFloat S).
Local Abbreviation call := (call growcap formatFloat S).
Local Abbreviation calls := (calls growcap formatFloat S).

Lemma quiet_emitted b : quiet b -> emitted b = buf b.
Proof. intros [Ht _]. unfold emitted. rewrite Ht. reflexivity. Qed.

Lemma eases_refl b : eases b b.
Proof. split; [exists []; rewrite app_nil_r; reflexivity | auto]. Qed.

Lemma eases_trans b1 b2 b3 : eases b1 b2 -> eases b2 b3 -> eases b1 b3.
Proof.
  intros [[o1 E1] Q1] [[o2 E2] Q2]. split.
  - exists (o1 ++ o2). rewrite E2, E1, app_assoc. reflexivity.
  - intros Hq Hb. apply Q2; [|exact Hb]. apply Q1; [exact Hq|].
    rewrite E2, len_app in Hb. pose proof (len_nonneg o2). lia.
Qed.

(** A step that leaves the history, the flag and the capacity alone. *)
Lemma eases_still b b' out :
  emitted b' = emitted b ++ out ->
  (quiet b -> len (emitted b') + 64 <= scratch_cap ->
   trace b' = trace b /\ locked b' = locked b /\ cap b' = cap b) ->
  eases b b'.
Proof.
  intros E H. split; [exists out; exact E|].
  intros Hq Hb. destruct (H Hq Hb) as (H1 & H2 & H3).
  destruct Hq as (Q1 & Q2 & Q3). unfold quiet. rewrite H1, H2, H3. auto.
Qed.

Lemma write1_eases s b : eases b (write1 s b).
Proof.
  apply eases_still with (out := s); [apply write1_emitted|].
  intros Hq Hb. rewrite write1_emitted, len_app, (quiet_emitted b Hq) in Hb.
  destruct Hq as (_ & _ & Hc). pose proof (len_nonneg (buf b)).
  pose proof (len_nonneg s). unfold write1.
  destruct (cap b <? len (buf b) + len s) eqn:E1; [lia|].
  destruct (cap b <? len s) eqn:E2; [lia|]. repeat split.
Qed.

Lemma goappend_eases s b : eases b (goappend s b).
Proof.
  apply eases_still with (out := s); [apply goappend_emitted|].
  intros Hq Hb. rewrite goappend_emitted, len_app, (quiet_emitted b Hq) in Hb.
  destruct Hq as (_ & _ & Hc). pose proof (len_nonneg s).
  rewrite goappend_fits by lia. repeat split.
Qed.

Lemma set_delim_eases' d b0 b : eases b0 b -> eases b0 (set_delim d b).
Proof. exact (fun H => H). Qed.

Lemma write1_eases' s b0 b : eases b0 b -> eases b0 (write1 s b).
Proof. intros H. eapply eases_trans; [exact H | apply write1_eases]. Qed.

Lemma write_eases' strs : forall b0 b, eases b0 b -> eases b0 (write strs b).
Proof.
  induction strs as [|s strs IH]; intros b0 b H; [exact H|].
  rewrite write_cons. apply IH, write1_eases', H.
Qed.

Lemma goappend_eases' s b0 b : eases b0 b -> eases b0 (goappend s b).
Proof. intros H. eapply eases_trans; [exact H | apply goappend_eases]. Qed.

Lemma writeBytes_eases' s b0 b : eases b0 b -> eases b0 (writeBytes s b).
Proof. rewrite writeBytes_write1. apply write1_eases'. Qed.

Lemma escape_loop_eases' rest : forall run b0 b,
  eases b0 b -> eases b0 (escape_loop run rest b).
Proof.
  induction rest as [|c rest IH]; intros run b0 b H; simpl.
  - apply write1_eases', H.
  - destruct (noEsc c); apply IH; [exact H|].
    apply write1_eases', write1_eases', H.
Qed.

Lemma escape_eases' s b0 b : eases b0 b -> eases b0 (escape s b).
Proof. apply escape_loop_eases'. Qed.

Lemma escapeBytes_eases' s b0 b : eases b0 b -> eases b0 (escapeBytes s b).
Proof.
  unfold escapeBytes. rewrite escapeBytes_loop_escape_loop.
  apply escape_loop_eases'.
Qed.

Lemma quote_eases' s b0 b : eases b0 b -> eases b0 (quote s b).
Proof.
  intros H. unfold quote.
  apply set_delim_eases', write_eases', escape_eases', write_eases', H.
Qed.

Lemma quoteBytes_eases' s b0 b : eases b0 b -> eases b0 (quoteBytes s b).
Proof.
  intros H. change (eases b0 (set_delim comma (quoteBytes s b))).
  rewrite <- quote_quoteBytes. apply quote_eases', H.
Qed.

Lemma open_eases' p b0 b : eases b0 b -> eases b0 (open p b).
Proof. intros H. unfold open. apply set_delim_eases', write_eases', H. Qed.

Lemma colon_eases' b0 b : eases b0 b -> eases b0 (colon b).
Proof. intros H. unfold colon. apply set_delim_eases', write_eases', H. Qed.

Lemma close_eases' p b0 b : eases b0 b -> eases b0 (close p b).
Proof. intros H. unfold close. apply set_delim_eases', write_eases', H. Qed.

(** With 64 bytes free after the delimiter, [scalar] has nothing to
    flush. *)
Lemma scalar_head_eases b : eases b (scalar_head b).
Proof.
  split; [exists (delim b); apply scalar_head_emitted|].
  intros Hq Hb. rewrite scalar_head_emitted in Hb.
  assert (H1 : eases b (set_delim [] (write [delim b] b)))
    by (apply set_delim_eases', write_eases', eases_refl).
  assert (E1 : emitted (set_delim [] (write [delim b] b))
               = emitted b ++ delim b).
  { rewrite emitted_set_delim, write_emitted. simpl. rewrite app_nil_r.
    reflexivity. }
  assert (Q1 : quiet (set_delim [] (write [delim b] b)))
    by (apply (proj2 H1); [exact Hq | rewrite E1; exact Hb]).
  unfold scalar_head. cbv zeta.
  rewrite <- E1, (quiet_emitted _ Q1) in Hb.
  destruct Q1 as (Q11 & Q12 & Q13).
  destruct (_ <? _) eqn:E; [lia|]. repeat split; assumption.
Qed.

Lemma scalar_head_eases' b0 b : eases b0 b -> eases b0 (scalar_head b).
Proof. intros H. eapply eases_trans; [exact H | apply scalar_head_eases]. Qed.

Create HintDb fast.
#[local] Hint Resolve eases_refl set_delim_eases' write1_eases' write_eases'
  goappend_eases' writeBytes_eases' escape_eases' escapeBytes_eases'
  quote_eases' quoteBytes_eases' open_eases' colon_eases' close_eases'
  scalar_head_eases' : fast.

Lemma scalar_string_eases' s b0 b : eases b0 b -> eases b0 (scalar_string s b).
Proof. unfold scalar_string. auto with fast. Qed.

Lemma scalar_nil_eases' b0 b : eases b0 b -> eases b0 (scalar_nil b).
Proof. unfold scalar_nil. auto with fast. Qed.

#[local] Hint Resolve scalar_string_eases' scalar_nil_eases' : fast.

Lemma fold_eases {A} (f : buffer -> A -> buffer) (l : list A) :
  Forall (fun x => forall b0 b, eases b0 b -> eases b0 (f b x)) l ->
  forall b0 b, eases b0 b -> eases b0 (fold_left f l b).
Proof.
  induction 1 as [|x l Hx _ IH]; intros b0 b H; simpl; [exact H|].
  apply IH, Hx, H.
Qed.

Lemma rawmap_loop_eases v :
  Forall (fun x => forall b0 b, eases b0 b -> eases b0 (scalar x b)) v ->
  forall even b0 b, eases b0 b ->
  eases b0 (rawmap_loop growcap formatFloat S even v b).
Proof.
  induction 1 as [|x v Hx _ IH]; intros even b0 b H; simpl; [exact H|].
  apply IH. destruct even; auto with fast.
Qed.

Lemma scalar_eases' v : forall b0 b, eases b0 b -> eases b0 (scalar v b).
Proof.
  induction v using value_ind_nested; intros b0 b Hb;
    try (cbn [scalar]; auto with fast; fail).
  - cbn [scalar]. destruct v; auto with fast.
  - cbn [scalar]. apply set_delim_eases', close_eases'.
    apply fold_eases; [|auto with fast].
    apply Forall_forall. intros; auto with fast.
  - cbn [scalar]. apply set_delim_eases', close_eases'.
    apply fold_eases; [|auto with fast].
    eapply Forall_impl; [|eassumption]. auto.
  - rewrite scalar_VRawMap. apply set_delim_eases', close_eases'. cbv zeta.
    assert (eases b0 (rawmap_loop growcap formatFloat S true v
                        (open (bs "{") (scalar_head b))))
      by (apply rawmap_loop_eases; auto with fast).
    destruct (_ =? _); auto with fast.
  - destruct m as [|e m]; [exact Hb|].
    cbn [scalar]. apply set_delim_eases', close_eases'.
    apply fold_eases; [|auto with fast].
    eapply Forall_impl; [|eassumption]. cbv beta. auto with fast.
  - rewrite scalar_VMap. apply set_delim_eases', close_eases'.
    apply fold_eases; [|auto with fast].
    apply sort_keys_Forall, Forall_map.
    eapply Forall_impl; [|eassumption]. cbv beta. simpl. auto with fast.
  - cbn [scalar]. destruct r; auto with fast.
Qed.

#[local] Hint Resolve scalar_eases' : fast.

Lemma pair_eases' k v b0 b : eases b0 b -> eases b0 (pair k v b).
Proof. unfold pair. auto with fast. Qed.

Lemma pairs_eases' m b0 b : eases b0 b -> eases b0 (pairs m b).
Proof.
  destruct m as [m|]; simpl; [|auto].
  apply fold_eases. apply Forall_forall. intros; apply pair_eases'; assumption.
Qed.

Lemma int2_eases' val b0 b b' :
  int2 val b = Some b' -> eases b0 b -> eases b0 b'.
Proof.
  intros H H0. eapply eases_trans; [exact H0|].
  destruct (int2_emitted val b b' H) as [E _].
  apply eases_still with (out := int2_text val); [exact E|].
  intros _ _. unfold int2 in H. destruct (_ <? _); [discriminate|].
  injection H as <-. repeat split.
Qed.

Lemma int_eases' val digits b0 b b' :
  int val digits b = Some b' -> eases b0 b -> eases b0 b'.
Proof.
  intros H H0. eapply eases_trans; [exact H0|].
  pose proof (int_emitted growcap val digits b b' H) as E.
  apply eases_still with (out := int_text val digits); [exact E|].
  intros Hq Hb. rewrite E, len_app, (quiet_emitted b Hq) in Hb.
  destruct Hq as (_ & _ & Hc).
  assert (Hlen : len (formatInt val) <= len (int_text val digits)).
  { unfold int_text. rewrite len_app, len_repeat. lia. }
  unfold int in H. rewrite goappend_fits in H by lia.
  destruct (_ <? digits); [destruct (_ <? _); [discriminate|]|];
    injection H as <-; repeat split.
Qed.

Lemma timestamp_text_len now : 22 <= len (timestamp_text now).
Proof.
  unfold timestamp_text, int_text.
  rewrite !len_app, !len_int2_text, len_repeat.
  pose proof (len_nonneg (formatInt (year now))).
  change (len dq) with 1. change (len (bs "-")) with 1.
  change (len (bs " ")) with 1. change (len (bs ":")) with 1.
  change (len (bs ".")) with 1. change (len (bs "Z")) with 1. lia.
Qed.

Lemma timestamp_unguarded now b b' :
  (cap b <? len (buf b) + 22) = false ->
  timestamp now b = Some b' -> eases b b'.
Proof.
  intros G H. unfold timestamp in H. rewrite G in H.
  repeat match type of H with
         | match ?x with Some _ => _ | None => _ end = _ =>
             let E := fresh "E" in
             destruct x eqn:E; [|discriminate]
         end.
  injection H as <-.
  repeat first
    [ apply set_delim_eases' | apply write_eases' | apply write1_eases'
    | apply goappend_eases' | apply eases_refl
    | match goal with
      | E : int2 _ _ = Some ?b |- eases _ ?b => apply (int2_eases' _ _ _ _ E)
      | E : int _ _ _ = Some ?b |- eases _ ?b => apply (int_eases' _ _ _ _ _ E)
      end ].
Qed.

Lemma timestamp_eases' now b0 b b' :
  timestamp now b = Some b' -> eases b0 b -> eases b0 b'.
Proof.
  intros H H0. eapply eases_trans; [exact H0|].
  destruct (timestamp_emitted growcap now b b' H) as [E _].
  split; [exists (timestamp_text now); exact E|].
  intros Hq Hb.
  assert (G : (cap b <? len (buf b) + 22) = false).
  { rewrite E, len_app, (quiet_emitted b Hq) in Hb.
    destruct Hq as (_ & _ & Hc). pose proof (timestamp_text_len now). lia. }
  exact (proj2 (timestamp_unguarded now b b' G H) Hq Hb).
Qed.

Lemma call_eases b b' : call b b' -> eases b b'.
Proof.
  destruct 1; eauto using eases_refl, pair_eases', pairs_eases', int2_eases',
    int_eases', timestamp_eases' with fast.
Qed.

Lemma calls_eases b b' : calls b b' -> eases b b'.
Proof.
  induction 1 as [b|b b' b'' _ IH Hc]; [apply eases_refl|].
  eapply eases_trans; [exact IH | apply call_eases, Hc].
Qed.

(** C5, as the code has it.  For a line composed by any calls of the
    engine on a buffer that starts in the scratch array without the
    mutex, if the line leaves 64 bytes of the scratch array free, nothing
    reaches the mutex or the stream before the release, and the release
    makes at most one write call: exactly one, carrying the whole line,
    when the line is not empty, and none when it is empty; the line never
    touches [outMu]. *)
Theorem fitting_line_single_write (b0 b : buffer) :
  line_start b0 -> cap b0 = scratch_cap -> calls b0 b ->
  len (emitted b) + 64 <= scratch_cap ->
  trace b = [] /\
  locked b = false /\
  emitted b = buf b /\
  trace (unlock b) = match buf b with [] => [] | _ => [EvWrite (buf b)] end /\
  (buf b <> [] -> writes (trace (unlock b)) = [emitted b]) /\
  held (trace (unlock b)) = false.
Proof.
  intros [Hl Ht] Hc Hcalls Hfit.
  assert (Hq : quiet b).
  { apply (proj2 (calls_eases b0 b Hcalls)); [|exact Hfit].
    repeat split; assumption. }
  pose proof (quiet_emitted b Hq) as He. destruct Hq as (Qt & Ql & _).
  assert (Hu : trace (unlock b) =
               match buf b with [] => [] | _ => [EvWrite (buf b)] end).
  { rewrite unlock_trace, Qt, Ql. destruct (buf b); reflexivity. }
  rewrite Hu, He. repeat split; auto.
  - destruct (buf b); [congruence | reflexivity].
  - destruct (buf b); reflexivity.
Qed.

End FastPath.

(** ** Examples for the fast path and the escaper *)

Lemma fitting_line_single_write_witness :
  line_start newBuffer /\
  len (emitted short_line) + 64 <= scratch_cap /\
  trace short_line = [] /\
  trace (unlock short_line) = [EvWrite (dq ++ bs "hello" ++ dq)].
Proof.
  assert (H1 : line_start newBuffer) by (split; reflexivity).
  assert (H2 : cap newBuffer = scratch_cap) by reflexivity.
  assert (H3 : calls growcap_twice formatFloat_zero S_text
                 newBuffer short_line).
  { eapply calls_snoc; [apply calls_nil | apply call_quote]. }
  assert (H4 : len (emitted short_line) + 64 <= scratch_cap)
    by (vm_compute; discriminate).
  split; [exact H1|]. split; [exact H4|].
  destruct (fitting_line_single_write growcap_twice formatFloat_zero S_text
              newBuffer short_line H1 H2 H3 H4) as (A & _ & _ & B & _).
  split; [exact A|]. rewrite B. reflexivity.
Defined.

(** C6 as it is worded: the escaper copies the byte [0xFF], which is not
    UTF-8, as it is, and a JSON parser reads it back as the three bytes
    of U+FFFD, so that the text made of [a], [0xFF] and [b] does not
    come back. *)
Lemma escape_roundtrip_not_for_all_bytes :
  ~ (forall s : gostring,
       json_unescape (emitted (escape s newBuffer)) = Some s).
Proof.
  intros H. specialize (H [x61; xff; x62]). vm_compute in H. discriminate H.
Qed.

Lemma escape_roundtrip_witness :
  valid_utf8 (bs "a" ++ dq ++ bsl ++ [x0a; x01; xc3; xa9]) = true /\
  json_unescape
    (emitted (escape (bs "a" ++ dq ++ bsl ++ [x0a; x01; xc3; xa9]) newBuffer))
  = Some (bs "a" ++ dq ++ bsl ++ [x0a; x01; xc3; xa9]).
Proof.
  assert (H : valid_utf8 (bs "a" ++ dq ++ bsl ++ [x0a; x01; xc3; xa9]) = true)
    by reflexivity.
  split; [exact H|].
  exact (proj1 (escape_roundtrip _ H)).
Defined.

Lemma quote_writes_json_string_witness :
  valid_utf8 (bs "x" ++ dq ++ bs "y") = true /\
  emitted (quote (bs "x" ++ dq ++ bs "y") newBuffer) =
    dq ++ bs "x" ++ bsl ++ dq ++ bs "y" ++ dq.
Proof.
  assert (H : valid_utf8 (bs "x" ++ dq ++ bs "y") = true) by reflexivity.
  split; [exact H|].
  pose proof (quote_writes_json_string growcap_twice (bs "x" ++ dq ++ bs "y")
                newBuffer H) as A.
  rewrite (proj1 A). reflexivity.
Defined.
